(** * Sequitur G2P wrapper (atliSig/g2p): a shallow embedding of [main.py]

    The development follows [main.py] and [conf.py]:
    - Python [str] values are lists of Unicode code points;
    - Python [float] values are IEEE binary64 numbers, the kernel's
      primitive floats;
    - exceptions are explicit: a call that may raise returns a sum, and
      code that may raise or loop returns an [outcome];
    - the Sequitur translator, [math.exp] and [str.lower] live outside the
      repository and are taken as parameters. *)

From Stdlib Require Import String Ascii.
From Stdlib Require Import ZArith List Bool Lia.
From Stdlib Require Import Floats.
Import ListNotations.

Set Implicit Arguments.

(* ===================================================================== *)
(** ** Python strings *)
(* ===================================================================== *)

Module Str.

(** A character is a Unicode code point, a string a list of them. *)
Definition char := Z.
Definition str := list char.

Definition char_eqb (a b : char) : bool := Z.eqb a b.

Definition mem (c : char) (s : str) : bool := existsb (char_eqb c) s.

(** Decoding of the UTF-8 bytes of a source literal into code points, so
    that the constants of [conf.py] can be written as they are there. *)
Fixpoint utf8_decode (bs : list Z) : str :=
  match bs with
  | [] => []
  | b0 :: r0 =>
    if (b0 <? 128)%Z then b0 :: utf8_decode r0
    else
      match r0 with
      | [] => []
      | b1 :: r1 =>
        if (b0 <? 224)%Z
        then ((b0 - 192) * 64 + (b1 - 128))%Z :: utf8_decode r1
        else
          match r1 with
          | [] => []
          | b2 :: r2 =>
            if (b0 <? 240)%Z
            then ((b0 - 224) * 4096 + (b1 - 128) * 64 + (b2 - 128))%Z
                   :: utf8_decode r2
            else
              match r2 with
              | [] => []
              | b3 :: r3 =>
                ((b0 - 240) * 262144 + (b1 - 128) * 4096
                 + (b2 - 128) * 64 + (b3 - 128))%Z :: utf8_decode r3
              end
          end
      end
  end.

Definition lit (s : string) : str :=
  utf8_decode (map (fun a => Z.of_N (N_of_ascii a)) (list_ascii_of_string s)).

(** [str.isspace] for one code point: the characters Python's
    [str.strip()] and [str.split()] treat as whitespace. *)
Definition isspace (c : char) : bool :=
  ((9 <=? c) && (c <=? 13) || (28 <=? c) && (c <=? 32)
   || (c =? 133) || (c =? 160) || (c =? 5760)
   || (8192 <=? c) && (c <=? 8202)
   || (c =? 8232) || (c =? 8233) || (c =? 8239) || (c =? 8287)
   || (c =? 12288))%Z.

Fixpoint lstrip (s : str) : str :=
  match s with
  | [] => []
  | c :: r => if isspace c then lstrip r else s
  end.

(** [s.strip()] *)
Definition strip (s : str) : str := rev (lstrip (rev (lstrip s))).

(** [s.split()]: the maximal runs of non-whitespace characters, in order.
    [cur] is the run being read, reversed. *)
Fixpoint split_from (cur : str) (s : str) : list str :=
  match s with
  | [] => match cur with [] => [] | _ => [rev cur] end
  | c :: r =>
    if isspace c
    then match cur with
         | [] => split_from [] r
         | _ => rev cur :: split_from [] r
         end
    else split_from (c :: cur) r
  end.

Definition split (s : str) : list str := split_from [] s.

(** [sep.join(parts)] *)
Fixpoint join (sep : str) (parts : list str) : str :=
  match parts with
  | [] => []
  | [p] => p
  | p :: rest => p ++ sep ++ join sep rest
  end.

(** [str.lower] on Basic Latin and the Latin-1 Supplement, where it maps
    each capital letter to the code point 32 above it.  Used to evaluate
    examples; the theorems about [normalize_word] take [str.lower] as a
    parameter. *)
Definition latin1_lower_char (c : char) : char :=
  if ((65 <=? c) && (c <=? 90)
      || (192 <=? c) && (c <=? 222) && negb (c =? 215))%Z
  then (c + 32)%Z else c.

Definition latin1_lower (s : str) : str := map latin1_lower_char s.

End Str.

Import Str.

(* ===================================================================== *)
(** ** conf.py *)
(* ===================================================================== *)

Module Conf.

Definition VARIANTS_NUMBER : Z := 4.
(** [0.9] is read as the nearest binary64 number, as Python reads it. *)
Definition VARIANTS_MASS : float := 0x1.ccccccccccccdp-1%float.

(** [DATA_DIR / 'ipd_clean_slt2018.mdl'], relative to the package. *)
Definition SEQUITUR_MDL_PATH : str := lit "data/ipd_clean_slt2018.mdl".

Definition ICE_ALPHABET : str := lit "aábdðeéfghiíjklmnoóprstuúvxyýþæö".

End Conf.

(* ===================================================================== *)
(** ** Regular expressions: the one pattern [main.py] compiles *)
(* ===================================================================== *)

Module Re.

(** [re.compile('[^' + members + ']')]: a negated character class whose
    members are literal characters.  The class body is literal when it
    contains none of the characters that are special inside a class. *)
Inductive pattern := NegClass (members : str).

Definition class_special (c : char) : bool :=
  ((c =? 92) || (c =? 93) || (c =? 45) || (c =? 94) || (c =? 91))%Z.

Definition literal_body (members : str) : bool :=
  negb (existsb class_special members)
  && match members with [] => false | _ => true end.

(** Does the pattern match the one-character string [c]? *)
Definition matches (p : pattern) (c : char) : bool :=
  match p with NegClass members => negb (mem c members) end.

(** [re.sub(p, '', s)] for a pattern that matches single characters:
    every matched character is replaced by the empty string. *)
Fixpoint sub_empty (p : pattern) (s : str) : str :=
  match s with
  | [] => []
  | c :: r => if matches p c then sub_empty p r else c :: sub_empty p r
  end.

End Re.

(* ===================================================================== *)
(** ** main.py: normalize_word *)
(* ===================================================================== *)

(** [SUB_PATTERN = re.compile(r'[^{}]'.format(ICE_ALPHABET))] *)
Definition SUB_PATTERN : Re.pattern := Re.NegClass Conf.ICE_ALPHABET.

Section Normalize.

(** [str.lower], the Unicode lowercasing of the Python runtime. *)
Variable lower : str -> str.

Definition normalize_word (word : str) (sub_pattern : Re.pattern) : str :=
  let word := lower word in
  let word := Re.sub_empty sub_pattern word in
  word.

End Normalize.

(* ===================================================================== *)
(** ** Exceptions and outcomes *)
(* ===================================================================== *)

(** The exceptions that occur in [main.py].  [RuntimeError] is what a
    [StopIteration] leaving a generator body becomes (PEP 479). *)
Inductive exn :=
| StopIteration
| TranslationFailure
| OverflowError
| IndexError
| ValueError
| RuntimeError.

(** The result of a call that may raise. *)
Definition result (A : Type) : Type := (exn + A)%type.

(** The outcome of running code that contains a loop: a value, an exception
    that leaves it, or the loop budget of the model used up. *)
Inductive outcome (A : Type) :=
| Ok (a : A)
| Raise (e : exn)
| OutOfFuel.

Arguments Ok {A} a.
Arguments Raise {A} e.
Arguments OutOfFuel {A}.

Definition bind {A B : Type} (m : outcome A) (k : A -> outcome B) : outcome B :=
  match m with
  | Ok a => k a
  | Raise e => Raise e
  | OutOfFuel => OutOfFuel
  end.

Notation "x <- m ;; k" := (bind m (fun x => k))
  (at level 61, m at next level, right associativity).

(** Running [f] over a list from left to right, stopping at the first call
    that does not return. *)
Fixpoint mapM {A B : Type} (f : A -> outcome B) (l : list A) : outcome (list B) :=
  match l with
  | [] => Ok []
  | a :: r => b <- f a ;; bs <- mapM f r ;; Ok (b :: bs)
  end.

(* ===================================================================== *)
(** ** The collaborators: options, translator *)
(* ===================================================================== *)

(** [class Options(dict)] with the four keys its constructor sets. *)
Record Options := {
  modelFile : str;
  encoding : str;
  variants_number : Z;
  variants_mass : float
}.

(** [Options(modelFile=m)]: the other keys take their defaults. *)
Definition Options_init (m : str) : Options :=
  {| modelFile := m;
     encoding := lit "UTF-8";
     variants_number := Conf.VARIANTS_NUMBER;
     variants_mass := Conf.VARIANTS_MASS |}.

(** [g2p.Translator] from Sequitur, as far as [predict] uses it.  [State] is
    the n-best context [nBestInit] returns; [nBestNext] advances it, so a
    successful call returns the context as it is after the call, and
    [logLikTotal] reads the attribute of that name.  Every call returns or
    raises; a search that never comes back is not modelled. *)
Record Translator (State : Type) := {
  nBestInit : str -> result State;
  nBestNext : State -> result (float * list str * State);
  logLikTotal : State -> float
}.

(** One entry of [output["results"]]. *)
Record Entry := {
  posterior : float;
  pronunciation : str
}.

(** The dictionary [predict] yields for a word. *)
Record Output := {
  word : str;
  results : list Entry
}.

(* ===================================================================== *)
(** ** main.py: predict *)
(* ===================================================================== *)

Section Predict.

Variable State : Type.

(** [math.exp]; [None] when it raises [OverflowError]. *)
Variable math_exp : float -> option float.

Variable TRANSLATOR : Translator State.
Variable TRANSLATOR_OPTIONS : Options.

(** The variables of the [while] loop; [out_results] is the list
    [output["results"]], which the loop extends in place. *)
Record LoopState := {
  n_best : State;
  total_posterior : float;
  n_variants : Z;
  out_results : list Entry
}.

(** The loop test. *)
Definition loop_cond (ls : LoopState) : bool :=
  (total_posterior ls <? variants_mass TRANSLATOR_OPTIONS)%float
  && (n_variants ls <? variants_number TRANSLATOR_OPTIONS)%Z.

(** What one run of the loop body does. *)
Inductive step :=
| Continue (ls' : LoopState)
| Break
| Throw (e : exn).

Definition loop_body (ls : LoopState) : step :=
  match nBestNext TRANSLATOR (n_best ls) with
  | inl StopIteration => Break
  | inl e => Throw e
  | inr (log_like, result, n_best') =>
    match math_exp (log_like - logLikTotal TRANSLATOR n_best')%float with
    | None => Throw OverflowError
    | Some posterior =>
      Continue
        {| n_best := n_best';
           total_posterior := (total_posterior ls + posterior)%float;
           n_variants := (n_variants ls + 1)%Z;
           out_results :=
             out_results ls
             ++ [ {| posterior := posterior;
                     pronunciation := join (lit " ") result |} ] |}
    end
  end.

(** The [while] loop.  It returns the contents of [output["results"]] when
    the loop is left and the exception that left it, if any; [None] when
    [fuel] runs of the body were not enough. *)
Fixpoint while_loop (fuel : nat) (ls : LoopState)
  : option (list Entry * option exn) :=
  if loop_cond ls then
    match fuel with
    | O => None
    | S fuel' =>
      match loop_body ls with
      | Continue ls' => while_loop fuel' ls'
      | Break => Some (out_results ls, None)
      | Throw e => Some (out_results ls, Some e)
      end
    end
  else Some (out_results ls, None).

(** The loop variables as the loop is entered. *)
Definition loop_start (st : State) : LoopState :=
  {| n_best := st;
     total_posterior := 0%float;
     n_variants := 0%Z;
     out_results := [] |}.

(** The body of [for word in words] up to its [yield]: the record yielded
    for [word], or the exception that leaves the generator. *)
Definition predict_word_fuel (fuel : nat) (word : str) : outcome Output :=
  let left := word in
  match nBestInit TRANSLATOR left with
  | inl TranslationFailure => Ok {| word := word; results := [] |}
  | inl StopIteration => Raise RuntimeError
  | inl e => Raise e
  | inr st =>
    match while_loop fuel (loop_start st) with
    | None => OutOfFuel
    | Some (rs, None) => Ok {| word := word; results := rs |}
    | Some (rs, Some TranslationFailure) => Ok {| word := word; results := rs |}
    | Some (rs, Some StopIteration) => Raise RuntimeError
    | Some (rs, Some e) => Raise e
    end
  end.

(** The loop test fails once [n_variants] reaches [variants_number], so
    that many runs of the body are always enough. *)
Definition loop_budget : nat := Z.to_nat (variants_number TRANSLATOR_OPTIONS).

Definition predict_word (word : str) : outcome Output :=
  predict_word_fuel loop_budget word.

(** [list(predict(words))]: the records in the order of the words, unless
    an exception leaves the generator. *)
Definition predict (words : list str) : outcome (list Output) :=
  mapM predict_word words.

(** [k] runs of the loop body that each passed the test and appended a
    hypothesis, from [ls]. *)
Fixpoint iterate (k : nat) (ls : LoopState) : option LoopState :=
  match k with
  | O => Some ls
  | S k' =>
    if loop_cond ls then
      match loop_body ls with
      | Continue ls' => iterate k' ls'
      | _ => None
      end
    else None
  end.

(** How the loop is left when it is left with the variables [ls]: without
    an exception ([Some None]) or with one; [None] when it goes on. *)
Definition loop_exit (ls : LoopState) : option (option exn) :=
  if loop_cond ls then
    match loop_body ls with
    | Continue _ => None
    | Break => Some None
    | Throw e => Some (Some e)
    end
  else Some None.

(** The first [k] candidates the search hands out from context [st]. *)
Fixpoint candidates (k : nat) (st : State) : list (float * list str * State) :=
  match k with
  | O => []
  | S k' =>
    match nBestNext TRANSLATOR st with
    | inr (log_like, result, st') => (log_like, result, st') :: candidates k' st'
    | inl _ => []
    end
  end.

(** The sum [total_posterior] holds after the posteriors [ps] were added
    to it one by one. *)
Definition cumulative (ps : list float) : float :=
  fold_left PrimFloat.add ps 0%float.

(** What holds of the loop variables whenever the loop test is evaluated:
    [total_posterior] is the sum of the posteriors appended so far,
    [n_variants] is their number and has not passed [variants_number], and
    the last entry, if there is one, was appended after the test had found
    the sum of the entries before it below [variants_mass]. *)
Definition loop_inv (ls : LoopState) : Prop :=
  total_posterior ls = cumulative (map posterior (out_results ls))
  /\ n_variants ls = Z.of_nat (length (out_results ls))
  /\ (n_variants ls <= Z.max 0 (variants_number TRANSLATOR_OPTIONS))%Z
  /\ (out_results ls = []
      \/ exists init last,
           out_results ls = init ++ [last]
           /\ (cumulative (map posterior init)
               <? variants_mass TRANSLATOR_OPTIONS)%float = true).

(** [e] is the entry the loop body appends for the candidate [c]. *)
Definition entry_of (c : float * list str * State) (e : Entry) : Prop :=
  let '(log_like, result, n_best') := c in
  math_exp (log_like - logLikTotal TRANSLATOR n_best')%float
  = Some (posterior e)
  /\ pronunciation e = join (lit " ") result.

End Predict.

Arguments Break {State}.
Arguments Throw {State} e.

(* ===================================================================== *)
(** ** main.py: get_phones and g2p_file *)
(* ===================================================================== *)

Section Driver.

Variable State : Type.

(** [math.exp] and [str.lower], as above. *)
Variable math_exp : float -> option float.
Variable lower : str -> str.

(** The value of the environment variable [G2P_MODEL], if it is set. *)
Variable G2P_MODEL : option str.

(** [Translator(SequiturTool.procureModel(options, loadG2PSample))] *)
Variable load_translator : Options -> Translator State.

(** [Options(modelFile=os.getenv("G2P_MODEL", SEQUITUR_MDL_PATH))] *)
Definition default_options : Options :=
  Options_init
    match G2P_MODEL with
    | Some path => path
    | None => Conf.SEQUITUR_MDL_PATH
    end.

(** [pred['results'][0]['pronunciation']] *)
Definition first_pronunciation (pred : Output) : outcome str :=
  match results pred with
  | [] => Raise IndexError
  | r :: _ => Ok (pronunciation r)
  end.

(** The pronunciation of the first, best-ranked entry of a record that has
    one. *)
Definition top_pronunciation (pred : Output) : str :=
  match results pred with
  | [] => []
  | r :: _ => pronunciation r
  end.

Definition get_phones (utt : str) (translator_options : option Options)
  : outcome (list str) :=
  let TRANSLATOR_OPTIONS :=
    match translator_options with
    | None => default_options
    | Some o => o
    end in
  let TRANSLATOR := load_translator TRANSLATOR_OPTIONS in
  let words := map (fun w => normalize_word lower w SUB_PATTERN)
                   (split (strip utt)) in
  predictions <- predict math_exp TRANSLATOR TRANSLATOR_OPTIONS words ;;
  mapM first_pronunciation predictions.

(** ['{}\t~ {} ~\n'.format(res[0].strip(), '\t'.join(res[1][:]))] *)
Definition format_line (line : str) (phones : list str) : str :=
  strip line ++ [9; 126; 32]%Z ++ join [9%Z] phones ++ [32; 126; 10]%Z.

(** The line format as the specification words it,
    [<line, trimmed>\t~ <pronunciation_1>\t<pronunciation_2>\t...\t~]:
    a tab stands between the last pronunciation and the closing mark. *)
Definition spec_format_line (line : str) (phones : list str) : str :=
  strip line ++ [9; 126; 32]%Z ++ join [9%Z] phones ++ [9; 126]%Z.

(** [g2p_file], with the lines of the source file for [src_path] and the
    strings written to the output file, in order, for [out_path].  Every
    line is submitted as [get_phones(line)], without options; the results
    are read in the order of submission, and an exception raised for a line
    is raised again when its result is read, before the first [write].
    [get_phones] returns a list, never [None], so no result is filtered
    out.  [ProcessPoolExecutor] rejects a worker count below one. *)
Definition g2p_file (lines : list str) (n_jobs : Z)
           (translator_options : option Options) : outcome (list str) :=
  if (n_jobs <=? 0)%Z then Raise ValueError
  else
    results <- mapM (fun line =>
                       phones <- get_phones line None ;; Ok (line, phones))
                    lines ;;
    Ok (map (fun res => format_line (fst res) (snd res)) results).

End Driver.

(* ===================================================================== *)
(** ** A scripted translator and an approximate exponential, to run the
       code on concrete inputs *)
(* ===================================================================== *)

Module Sample.

(** An n-best context: the total log-likelihood and what the next calls of
    [nBestNext] do, in order; [StopIteration] once the script is over. *)
Record ctx := {
  total : float;
  script : list (result (float * list str))
}.

Definition next (c : ctx) : result (float * list str * ctx) :=
  match script c with
  | [] => inl StopIteration
  | inl e :: _ => inl e
  | inr (ll, phones) :: rest =>
    inr (ll, phones, {| total := total c; script := rest |})
  end.

Definition str_eqb (a b : str) : bool :=
  if list_eq_dec Z.eq_dec a b then true else false.

(** A translator that knows the words of [lexicon] and fails on the others. *)
Definition translator (lexicon : list (str * ctx)) : Translator ctx :=
  {| nBestInit := fun w =>
       match find (fun e => str_eqb (fst e) w) lexicon with
       | Some e => inr (snd e)
       | None => inl TranslationFailure
       end;
     nBestNext := next;
     logLikTotal := total |}.

(** exp(x) as the 1024th power of a Taylor polynomial at x/1024, with the
    [OverflowError] above 709.75, near where [math.exp] overflows. *)
Definition exp (x : float) : option float :=
  if (709.75 <? x)%float then None
  else
    let y := (x / 1024)%float in
    let p := (1 + y * (1 + y / 2 * (1 + y / 3 * (1 + y / 4 * (1 + y / 5
               * (1 + y / 6 * (1 + y / 7 * (1 + y / 8))))))))%float in
    let sq := fun a : float => (a * a)%float in
    Some (sq (sq (sq (sq (sq (sq (sq (sq (sq (sq p)))))))))).

Definition options (n : Z) (mass : float) : Options :=
  {| modelFile := lit "sample.mdl"; encoding := lit "UTF-8";
     variants_number := n; variants_mass := mass |}.

(** The context of [cab]: two pronunciations, the first with the total
    log-likelihood. *)
Definition cab : ctx :=
  {| total := (-1)%float;
     script := [ inr ((-1)%float, [lit "k"; lit "a"; lit "b"]);
                 inr ((-2)%float, [lit "k"; lit "a"; lit "p"]) ] |}.

(** Two Icelandic words with one pronunciation each. *)
Definition hus : ctx :=
  {| total := (-3)%float;
     script := [ inr ((-3)%float, [lit "h"; lit "u:"; lit "s"]) ] |}.

Definition og : ctx :=
  {| total := (-2)%float;
     script := [ inr ((-2)%float, [lit "O:"; lit "G"]) ] |}.

(** A context whose second retrieval fails. *)
Definition broken : ctx :=
  {| total := (-1)%float;
     script := [ inr ((-2)%float, [lit "a"]); inl TranslationFailure ] |}.

Definition lexicon : list (str * ctx) :=
  [ (lit "cab", cab); (lit "hús", hus); (lit "og", og); (lit "á", broken) ].

Definition load (_ : Options) : Translator ctx := translator lexicon.

End Sample.

(* ===================================================================== *)
(** ** main.py: the rest of the module (ipa_map, class Options) *)
(* ===================================================================== *)

(** [s.split(sep)] for a separator of one character: the fields between
    the separators, empty ones included.  [cur] is the field being read,
    reversed. *)
Fixpoint split_on_from (sep : char) (cur : str) (s : str) : list str :=
  match s with
  | [] => [rev cur]
  | c :: r =>
    if char_eqb c sep
    then rev cur :: split_on_from sep [] r
    else split_on_from sep (c :: cur) r
  end.

Definition split_on (sep : char) (s : str) : list str :=
  split_on_from sep [] s.

Module Dict.

(** A Python [dict] with string keys: the items in the order of their
    first insertion. *)
Definition dict (V : Type) : Type := list (str * V).

Definition key_eqb (a b : str) : bool :=
  if list_eq_dec Z.eq_dec a b then true else false.

(** [d[k]]; [None] when it raises [KeyError]. *)
Fixpoint getitem {V : Type} (k : str) (d : dict V) : option V :=
  match d with
  | [] => None
  | (k', v) :: r => if key_eqb k' k then Some v else getitem k r
  end.

(** [d[k] = v] *)
Fixpoint setitem {V : Type} (k : str) (v : V) (d : dict V) : dict V :=
  match d with
  | [] => [(k, v)]
  | (k', v') :: r =>
    if key_eqb k' k then (k', v) :: r else (k', v') :: setitem k v r
  end.

(** [list(d.keys())] *)
Definition keys {V : Type} (d : dict V) : list str := map fst d.

End Dict.

(** [old, new = line.strip().split('\t')]: the two fields of a line of the
    map file; unpacking any other number of fields raises [ValueError]. *)
Definition ipa_entry (line : str) : outcome (str * str) :=
  match split_on 9%Z (strip line) with
  | [old; new] => Ok (old, new)
  | _ => Raise ValueError
  end.

(** The loop [for line in f: ...; ipa_map[old] = new] over the lines of the
    file, from the dictionary built so far. *)
Fixpoint ipa_map_from (ipa_map : Dict.dict str) (lines : list str)
  : outcome (Dict.dict str) :=
  match lines with
  | [] => Ok ipa_map
  | line :: rest =>
    entry <- ipa_entry line ;;
    ipa_map_from (Dict.setitem (fst entry) (snd entry) ipa_map) rest
  end.

(** [ipa_map] as the module leaves it, from the lines of the file at
    [IPA_MAP_PATH]. *)
Definition ipa_map (lines : list str) : outcome (Dict.dict str) :=
  ipa_map_from [] lines.

(** What the file says last about the symbol [k]: the second field of the
    last line whose first field is [k]. *)
Fixpoint last_mapping (k : str) (lines : list str) : option str :=
  match lines with
  | [] => None
  | line :: rest =>
    match last_mapping k rest with
    | Some v => Some v
    | None =>
      match ipa_entry line with
      | Ok (old, new) => if Dict.key_eqb old k then Some new else None
      | _ => None
      end
    end
  end.

(** The values [Options] holds or hands out. *)
Inductive pyval :=
| PyNone
| PyStr (s : str)
| PyInt (n : Z)
| PyFloat (x : float).

Module OptionsDict.

(** [Options.__init__]: [super().__init__(modelFile=..., encoding=...,
    variants_number=..., variants_mass=...)]. *)
Definition init (modelFile encoding variants_number variants_mass : pyval)
  : Dict.dict pyval :=
  [ (lit "modelFile", modelFile);
    (lit "encoding", encoding);
    (lit "variants_number", variants_number);
    (lit "variants_mass", variants_mass) ].

(** [Options.__getattr__]: [self[name]], and [None] on [KeyError]. *)
Definition getattr (self : Dict.dict pyval) (name : str) : pyval :=
  match Dict.getitem name self with
  | Some v => v
  | None => PyNone
  end.

(** [Options.__setattr__]: [self[name] = value]. *)
Definition setattr (self : Dict.dict pyval) (name : str) (value : pyval)
  : Dict.dict pyval :=
  Dict.setitem name value self.

(** The dictionary of an options record. *)
Definition of_record (o : Options) : Dict.dict pyval :=
  init (PyStr (modelFile o)) (PyStr (encoding o))
       (PyInt (variants_number o)) (PyFloat (variants_mass o)).

End OptionsDict.

(** More inputs to run the code on. *)
Module Sample2.

(** A context whose only candidate lies so far above the total
    log-likelihood that the exponential overflows. *)
Definition overflow : Sample.ctx :=
  {| Sample.total := (-1000)%float;
     Sample.script := [ inr (0%float, [lit "a"]) ] |}.

Definition overflow_lexicon : list (str * Sample.ctx) :=
  [ (lit "æ", overflow) ].

(** A translator with one candidate for every word: the symbol [a].  Its
    context says whether the candidate is still to come. *)
Definition single : Translator bool :=
  {| nBestInit := fun _ => inr true;
     nBestNext := fun pending =>
       if pending then inr ((-1)%float, [lit "a"], false)
       else inl StopIteration;
     logLikTotal := fun _ => (-1)%float |}.

(** Three lines of a map file; the third replaces the first. *)
Definition map_lines : list str :=
  [ lit "a" ++ [9%Z] ++ lit "A" ++ [10%Z];
    lit "b" ++ [9%Z] ++ lit "B" ++ [10%Z];
    lit "a" ++ [9%Z] ++ lit "C" ++ [10%Z] ].

End Sample2.

(* ===================================================================== *)
(** * Properties *)
(* ===================================================================== *)

Unset Implicit Arguments.

(** ** Floating-point facts *)

(** A finite number minus itself is [+0]. *)
Lemma float_sub_diag (x : float) : is_finite x = true -> (x - x)%float = 0%float.
Proof.
  intros Hfin. apply Prim2SF_inj. rewrite sub_spec.
  unfold is_finite, is_nan, is_infinity in Hfin.
  rewrite !eqb_spec, abs_spec in Hfin.
  destruct (Prim2SF x) as [s | s | | s m e].
  - destruct s; reflexivity.
  - destruct s; discriminate Hfin.
  - discriminate Hfin.
  - unfold SF64sub, SFsub. rewrite Z.sub_diag. reflexivity.
Qed.

Lemma cumulative_snoc (ps : list float) (p : float) :
  cumulative (ps ++ [p]) = (cumulative ps + p)%float.
Proof. unfold cumulative. rewrite fold_left_app. reflexivity. Qed.

(** ** The outcome monad *)

Lemma mapM_Ok_all {A B : Type} (f : A -> outcome B) (g : A -> B) (l : list A) :
  (forall a, In a l -> f a = Ok (g a)) -> mapM f l = Ok (map g l).
Proof.
  induction l as [| a r IH]; intros H; simpl.
  - reflexivity.
  - rewrite (H a (or_introl eq_refl)). simpl.
    rewrite IH by (intros; apply H; right; assumption). reflexivity.
Qed.

(** The first call that raises decides the outcome. *)
Lemma mapM_Raise {A B : Type} (f : A -> outcome B) (e : exn)
      (pre post : list A) (a : A) :
  (forall x, In x pre -> exists b, f x = Ok b) -> f a = Raise e ->
  mapM f (pre ++ a :: post) = Raise e.
Proof.
  intros Hpre Ha. induction pre as [| x pre IH]; simpl.
  - rewrite Ha. reflexivity.
  - destruct (Hpre x (or_introl eq_refl)) as [b Hb]. rewrite Hb. simpl.
    rewrite IH by (intros; apply Hpre; right; assumption). reflexivity.
Qed.

(** ** The retrieval loop *)

Section PredictFacts.

Variable State : Type.
Variable math_exp : float -> option float.
Variable tr : Translator State.
Variable opts : Options.

Local Abbreviation cond := (loop_cond opts).
Local Abbreviation body := (loop_body math_exp tr).
Local Abbreviation loop := (while_loop math_exp tr opts).
Local Abbreviation iter := (iterate math_exp tr opts).
Local Abbreviation exit := (loop_exit math_exp tr opts).

(** A run of the body that goes on retrieved a candidate and appended one
    entry for it. *)
Lemma loop_body_Continue (ls ls' : LoopState State) :
  body ls = Continue ls' ->
  exists log_like result st' p,
    nBestNext tr (n_best ls) = inr (log_like, result, st')
    /\ math_exp (log_like - logLikTotal tr st')%float = Some p
    /\ ls' = {| n_best := st';
                total_posterior := (total_posterior ls + p)%float;
                n_variants := (n_variants ls + 1)%Z;
                out_results :=
                  out_results ls
                  ++ [ {| posterior := p;
                          pronunciation := join (lit " ") result |} ] |}.
Proof.
  unfold loop_body.
  destruct (nBestNext tr (n_best ls)) as [e | [[ll res] st']].
  - destruct e; discriminate.
  - destruct (math_exp (ll - logLikTotal tr st')%float) as [p |] eqn:Hp;
      [| discriminate].
    intros H. inversion H. exists ll, res, st', p. auto.
Qed.

Lemma iterate_S (k : nat) (ls : LoopState State) :
  iter (S k) ls =
  if cond ls then
    match body ls with
    | Continue ls' => iter k ls'
    | _ => None
    end
  else None.
Proof. reflexivity. Qed.

(** The last of [S k] runs starts from what [k] runs lead to. *)
Lemma iterate_last (k : nat) (ls ls' : LoopState State) :
  iter (S k) ls = Some ls' ->
  exists mid, iter k ls = Some mid /\ cond mid = true /\ body mid = Continue ls'.
Proof.
  revert ls. induction k as [| k IH]; intros ls H.
  - rewrite iterate_S in H. exists ls.
    destruct (cond ls) eqn:Hc; [| discriminate].
    destruct (body ls) as [l1 | |] eqn:Hb; try discriminate.
    simpl in H. inversion H. subst. auto.
  - rewrite iterate_S in H.
    destruct (cond ls) eqn:Hc; [| discriminate].
    destruct (body ls) as [l1 | |] eqn:Hb; try discriminate.
    destruct (IH l1 H) as (mid & Hmid & Hcm & Hbm).
    exists mid. rewrite iterate_S, Hc, Hb. auto.
Qed.

(** A property that every run of the body preserves holds after any number
    of runs. *)
Lemma iterate_preserves (P : LoopState State -> Prop) :
  (forall a b, P a -> cond a = true -> body a = Continue b -> P b) ->
  forall k ls ls', P ls -> iter k ls = Some ls' -> P ls'.
Proof.
  intros Hstep. induction k as [| k IH]; intros ls ls' HP H.
  - simpl in H. inversion H. subst. assumption.
  - rewrite iterate_S in H.
    destruct (cond ls) eqn:Hc; [| discriminate].
    destruct (body ls) as [l1 | |] eqn:Hb; try discriminate.
    apply (IH l1); eauto.
Qed.

(** When the loop returns, it ran the body some number of times and was
    left from the variables these runs led to. *)
Lemma while_loop_inv (fuel : nat) (ls : LoopState State) rs e :
  loop fuel ls = Some (rs, e) ->
  exists k end_,
    (k <= fuel)%nat /\ iter k ls = Some end_ /\ rs = out_results end_
    /\ exit end_ = Some e.
Proof.
  revert ls. induction fuel as [| fuel IH]; intros ls H.
  - simpl in H. destruct (cond ls) eqn:Hc; [discriminate |].
    inversion H. subst. exists 0%nat, ls. unfold loop_exit. rewrite Hc. auto.
  - simpl in H. destruct (cond ls) eqn:Hc.
    + destruct (body ls) as [l1 | | x] eqn:Hb.
      * destruct (IH l1 H) as (k & end_ & Hk & Hit & Hrs & Hex).
        exists (S k), end_. rewrite iterate_S, Hc, Hb. auto with arith.
      * inversion H. subst. exists 0%nat, ls. unfold loop_exit.
        rewrite Hc, Hb. auto with arith.
      * inversion H. subst. exists 0%nat, ls. unfold loop_exit.
        rewrite Hc, Hb. auto with arith.
    + inversion H. subst. exists 0%nat, ls. unfold loop_exit. rewrite Hc.
      auto with arith.
Qed.

(** Conversely, [k] runs followed by an exit are what the loop does. *)
Lemma while_loop_after (k : nat) (ls end_ : LoopState State) e :
  iter k ls = Some end_ -> exit end_ = Some e ->
  loop (S k) ls = Some (out_results end_, e).
Proof.
  revert ls. induction k as [| k IH]; intros ls H Hex.
  - simpl in H. inversion H. subst. unfold loop_exit in Hex. simpl.
    destruct (cond end_); [| inversion Hex; reflexivity].
    destruct (body end_); inversion Hex; reflexivity.
  - rewrite iterate_S in H.
    destruct (cond ls) eqn:Hc; [| discriminate].
    destruct (body ls) as [l1 | |] eqn:Hb; try discriminate.
    specialize (IH l1 H Hex).
    change (loop (S (S k)) ls)
      with (if cond ls then
              match body ls with
              | Continue ls' => loop (S k) ls'
              | Break => Some (out_results ls, None)
              | Throw x => Some (out_results ls, Some x)
              end
            else Some (out_results ls, None)).
    rewrite Hc, Hb. exact IH.
Qed.

(** More fuel does not change what the loop returns. *)
Lemma while_loop_mono (fuel : nat) :
  forall (ls : LoopState State) r fuel',
    loop fuel ls = Some r -> (fuel <= fuel')%nat -> loop fuel' ls = Some r.
Proof.
  induction fuel as [| fuel IH]; intros ls r fuel' H Hle.
  - simpl in H. destruct (cond ls) eqn:Hc; [discriminate |].
    destruct fuel'; simpl; rewrite Hc; assumption.
  - destruct fuel' as [| fuel']; [lia |].
    simpl in H |- *. destruct (cond ls); [| assumption].
    destruct (body ls) as [l1 | |]; try assumption.
    apply IH; [assumption | lia].
Qed.

(** The loop returns within [variants_number - n_variants] runs. *)
Lemma while_loop_total (fuel : nat) :
  forall ls : LoopState State,
    (Z.to_nat (variants_number opts - n_variants ls) <= fuel)%nat ->
    exists r, loop fuel ls = Some r.
Proof.
  induction fuel as [| fuel IH]; intros ls Hle.
  - simpl. destruct (cond ls) eqn:Hc; [| eauto].
    unfold loop_cond in Hc. apply andb_prop in Hc. destruct Hc as [_ Hn].
    apply Z.ltb_lt in Hn. lia.
  - simpl. destruct (cond ls) eqn:Hc; [| eauto].
    destruct (body ls) as [l1 | |] eqn:Hb; eauto.
    apply IH. apply loop_body_Continue in Hb.
    destruct Hb as (ll & res & st' & p & _ & _ & ->). simpl.
    unfold loop_cond in Hc. apply andb_prop in Hc. destruct Hc as [_ Hn].
    apply Z.ltb_lt in Hn. lia.
Qed.

(** The loop returns what [k] runs and an exit produce, whatever fuel at
    least [variants_number - n_variants] it is given. *)
Lemma while_loop_runs (k fuel : nat) (ls end_ : LoopState State) e :
  iter k ls = Some end_ -> exit end_ = Some e ->
  (Z.to_nat (variants_number opts - n_variants ls) <= fuel)%nat ->
  loop fuel ls = Some (out_results end_, e).
Proof.
  intros Hit Hex Hfuel.
  destruct (while_loop_total fuel ls Hfuel) as [r Hr].
  pose proof (while_loop_after k ls end_ e Hit Hex) as Hk.
  apply while_loop_mono with (fuel' := Nat.max fuel (S k)) in Hr; [| lia].
  apply while_loop_mono with (fuel' := Nat.max fuel (S k)) in Hk; [| lia].
  rewrite Hr in Hk. inversion Hk. subst r.
  destruct (while_loop_total fuel ls Hfuel) as [r' Hr'].
  pose proof (while_loop_mono fuel ls r' _ Hr' (Nat.le_max_l fuel (S k))) as Hr2.
  rewrite Hr in Hr2. inversion Hr2. subst r'. exact Hr'.
Qed.

Lemma loop_inv_start (st : State) : loop_inv opts (loop_start st).
Proof.
  unfold loop_inv, loop_start. simpl. repeat split; auto. lia.
Qed.

Lemma loop_inv_step (a b : LoopState State) :
  loop_inv opts a -> cond a = true -> body a = Continue b -> loop_inv opts b.
Proof.
  intros (Htot & Hn & Hle & _) Hc Hb.
  apply loop_body_Continue in Hb.
  destruct Hb as (ll & res & st' & p & _ & _ & ->).
  unfold loop_cond in Hc. apply andb_prop in Hc. destruct Hc as [Hmass Hnum].
  apply Z.ltb_lt in Hnum.
  unfold loop_inv. cbn [total_posterior n_variants out_results].
  repeat split.
  - rewrite map_app. cbn [map posterior].
    rewrite cumulative_snoc, Htot. reflexivity.
  - rewrite length_app. simpl. lia.
  - lia.
  - right. eexists. eexists. split; [reflexivity |].
    rewrite <- Htot. exact Hmass.
Qed.

Lemma loop_inv_iterate (k : nat) (st : State) (ls : LoopState State) :
  iter k (loop_start st) = Some ls -> loop_inv opts ls.
Proof.
  apply (iterate_preserves (loop_inv opts) loop_inv_step).
  apply loop_inv_start.
Qed.

(** The entries [k] runs append are those of the first [k] candidates, in
    order. *)
Lemma iterate_results (k : nat) :
  forall ls ls' : LoopState State,
    iter k ls = Some ls' ->
    exists added,
      out_results ls' = out_results ls ++ added
      /\ length added = k
      /\ Forall2 (entry_of math_exp tr) (candidates tr k (n_best ls)) added.
Proof.
  induction k as [| k IH]; intros ls ls' H.
  - simpl in H. inversion H. subst. exists []. rewrite app_nil_r.
    simpl. auto.
  - rewrite iterate_S in H.
    destruct (cond ls) eqn:Hc; [| discriminate].
    destruct (body ls) as [l1 | |] eqn:Hb; try discriminate.
    destruct (IH l1 ls' H) as (added & Hres & Hlen & Hall).
    apply loop_body_Continue in Hb.
    destruct Hb as (ll & res & st' & p & Hnext & Hp & ->).
    simpl in Hres, Hall.
    exists ({| posterior := p; pronunciation := join (lit " ") res |} :: added).
    split; [| split].
    + rewrite Hres, <- app_assoc. reflexivity.
    + simpl. congruence.
    + simpl. rewrite Hnext. constructor; [| exact Hall].
      unfold entry_of. simpl. auto.
Qed.

(** A record [predict] yields for a word comes from a failed initialisation
    or from some runs of the loop body and an exit without an exception or
    with [TranslationFailure]. *)
Lemma predict_word_fuel_Ok (fuel : nat) (w : str) (out : Output) :
  predict_word_fuel math_exp tr opts fuel w = Ok out ->
  word out = w
  /\ ((nBestInit tr w = inl TranslationFailure /\ results out = [])
      \/ exists st k end_,
           nBestInit tr w = inr st
           /\ iter k (loop_start st) = Some end_
           /\ results out = out_results end_
           /\ (exit end_ = Some None
               \/ exit end_ = Some (Some TranslationFailure))).
Proof.
  unfold predict_word_fuel.
  destruct (nBestInit tr w) as [e | st] eqn:Hinit.
  - destruct e; intros H; inversion H. simpl. auto.
  - destruct (loop fuel (loop_start st)) as [[rs e] |] eqn:Hloop;
      [| discriminate].
    apply while_loop_inv in Hloop.
    destruct Hloop as (k & end_ & _ & Hit & -> & Hex).
    destruct e as [e |].
    + destruct e; intros H; inversion H. simpl. split; [reflexivity |].
      right. exists st, k, end_. auto.
    + intros H; inversion H. simpl. split; [reflexivity |].
      right. exists st, k, end_. auto.
Qed.

(** The record of a word whose loop makes [k] runs and is then left. *)
Lemma predict_word_runs (w : str) (st : State) (k : nat)
      (ls : LoopState State) :
  nBestInit tr w = inr st ->
  iter k (loop_start st) = Some ls ->
  (exit ls = Some None \/ exit ls = Some (Some TranslationFailure)) ->
  predict_word math_exp tr opts w
  = Ok {| word := w; results := out_results ls |}.
Proof.
  intros Hinit Hit Hex. unfold predict_word, predict_word_fuel.
  rewrite Hinit.
  assert (Hfuel : (Z.to_nat (variants_number opts
                             - n_variants (loop_start st))
                   <= loop_budget opts)%nat).
  { unfold loop_budget, loop_start. simpl. lia. }
  destruct Hex as [Hex | Hex];
    rewrite (while_loop_runs k _ _ ls _ Hit Hex Hfuel); reflexivity.
Qed.

(** ** The aggregator: what [predict] guarantees for a word *)

(** C2: in the list of a yielded record, the posteriors of all entries but
    the last one, added up from [0.0] in order as [total_posterior] adds
    them, are strictly below [variants_mass]: the bound is tested before the
    next candidate is requested and appended. *)
Theorem C2_mass_below_limit_before_last (w : str) (out : Output)
        (init : list Entry) (last : Entry) :
  predict_word math_exp tr opts w = Ok out ->
  results out = init ++ [last] ->
  (cumulative (map posterior init) <? variants_mass opts)%float = true.
Proof.
  intros Hout Hres.
  apply predict_word_fuel_Ok in Hout.
  destruct Hout as (_ & [[_ Hnil] | (st & k & end_ & _ & Hit & Hrs & _)]).
  - rewrite Hnil in Hres. destruct init; discriminate.
  - apply loop_inv_iterate in Hit.
    destruct Hit as (_ & _ & _ & [Hnil | (init' & last' & Heq & Hlt)]).
    + rewrite Hrs, Hnil in Hres. destruct init; discriminate.
    + rewrite Hrs, Heq in Hres. apply app_inj_tail in Hres.
      destruct Hres as [-> _]. exact Hlt.
Qed.

(** C3: with a non-negative [variants_number], the list of a yielded record
    has at most [variants_number] entries. *)
Theorem C3_results_at_most_variants_number (w : str) (out : Output) :
  (0 <= variants_number opts)%Z ->
  predict_word math_exp tr opts w = Ok out ->
  (Z.of_nat (length (results out)) <= variants_number opts)%Z.
Proof.
  intros Hpos Hout.
  apply predict_word_fuel_Ok in Hout.
  destruct Hout as (_ & [[_ Hnil] | (st & k & end_ & _ & Hit & Hrs & _)]).
  - rewrite Hnil. simpl. exact Hpos.
  - apply loop_inv_iterate in Hit.
    destruct Hit as (_ & Hn & Hle & _).
    rewrite Hrs, <- Hn. lia.
Qed.

(** C4: the entries of a yielded record are, in order, those of the first
    candidates of the search: the posterior of each is
    [math.exp(log_like - n_best.logLikTotal)] for its candidate, and its
    pronunciation the candidate's symbols joined by spaces.  In particular,
    when the first candidate's log-likelihood is the finite number
    [logLikTotal], and [math.exp(0.0)] is [1.0], the first entry has
    posterior [1.0]. *)
Theorem C4_posterior_is_exp_of_difference (w : str) (st : State)
        (out : Output) :
  nBestInit tr w = inr st ->
  predict_word math_exp tr opts w = Ok out ->
  Forall2 (entry_of math_exp tr)
          (candidates tr (length (results out)) st) (results out)
  /\ forall log_like result st' e rest,
       nBestNext tr st = inr (log_like, result, st') ->
       log_like = logLikTotal tr st' ->
       is_finite log_like = true ->
       math_exp 0%float = Some 1%float ->
       results out = e :: rest ->
       posterior e = 1%float.
Proof.
  intros Hinit Hout.
  apply predict_word_fuel_Ok in Hout.
  destruct Hout as (_ & [[Hfail _] | (st0 & k & end_ & Hinit' & Hit & Hrs & _)]).
  { rewrite Hinit in Hfail. discriminate. }
  rewrite Hinit in Hinit'. inversion Hinit'. subst st0.
  destruct (iterate_results k _ _ Hit) as (added & Hres & Hlen & Hall).
  simpl in Hres, Hall. rewrite <- Hres in Hall.
  assert (Hk : length (results out) = k) by (rewrite Hrs, Hres; exact Hlen).
  assert (Hfirst : Forall2 (entry_of math_exp tr)
                           (candidates tr (length (results out)) st)
                           (results out)).
  { rewrite Hk, Hrs. exact Hall. }
  split; [exact Hfirst |].
  intros ll res st' e rest Hnext Heq Hfin Hexp Hcons.
  rewrite Hcons in Hfirst. simpl in Hfirst. rewrite Hnext in Hfirst.
  inversion Hfirst as [| c e' cs es Hentry _]. subst.
  unfold entry_of in Hentry. destruct Hentry as [Hp _].
  rewrite float_sub_diag in Hp by exact Hfin.
  rewrite Hexp in Hp. inversion Hp. reflexivity.
Qed.

(** C5: when [nBestInit] raises [TranslationFailure] for a word, [predict]
    yields the record of that word with an empty list, and goes on with the
    words after it. *)
Theorem C5_init_failure_yields_empty_record (w : str) (ws : list str) :
  nBestInit tr w = inl TranslationFailure ->
  predict_word math_exp tr opts w = Ok {| word := w; results := [] |}
  /\ predict math_exp tr opts (w :: ws)
     = (outs <- predict math_exp tr opts ws ;;
        Ok ({| word := w; results := [] |} :: outs)).
Proof.
  intros Hinit.
  assert (Hw : predict_word math_exp tr opts w
               = Ok {| word := w; results := [] |}).
  { unfold predict_word, predict_word_fuel. rewrite Hinit. reflexivity. }
  split; [exact Hw |].
  unfold predict. simpl. rewrite Hw. reflexivity.
Qed.

(** C6: when, after [k] candidates were appended, [nBestNext] raises
    [StopIteration], the record yielded for the word holds exactly these
    [k] entries, and no exception leaves [predict]; [k] may be any number
    the two bounds allowed. *)
Theorem C6_exhaustion_ends_loop_silently (w : str) (st : State) (k : nat)
        (ls : LoopState State) :
  nBestInit tr w = inr st ->
  iterate math_exp tr opts k (loop_start st) = Some ls ->
  nBestNext tr (n_best ls) = inl StopIteration ->
  predict_word math_exp tr opts w
  = Ok {| word := w; results := out_results ls |}
  /\ length (out_results ls) = k.
Proof.
  intros Hinit Hit Hstop. split.
  - apply (predict_word_runs w st k ls Hinit Hit). left.
    unfold loop_exit, loop_body. rewrite Hstop.
    destruct (cond ls); reflexivity.
  - destruct (iterate_results k _ _ Hit) as (added & Hres & Hlen & _).
    rewrite Hres. simpl. exact Hlen.
Qed.

(** C7: the retrieval loop returns.  From any loop variables it is left
    after at most [variants_number - n_variants] runs of the body, whatever
    fuel beyond that it is given, because the test fails, the search is
    exhausted or an exception is raised; every run that goes on adds one to
    [n_variants]; and [predict] never comes back without a record or an
    exception for a word. *)
Theorem C7_retrieval_loop_terminates :
  (forall (ls : LoopState State) (extra : nat),
      exists rs e k end_,
        while_loop math_exp tr opts
                   (Z.to_nat (variants_number opts - n_variants ls) + extra) ls
        = Some (rs, e)
        /\ iterate math_exp tr opts k ls = Some end_
        /\ loop_exit math_exp tr opts end_ = Some e
        /\ rs = out_results end_
        /\ (k <= Z.to_nat (variants_number opts - n_variants ls))%nat)
  /\ (forall ls ls' : LoopState State,
         loop_body math_exp tr ls = Continue ls' ->
         n_variants ls' = (n_variants ls + 1)%Z)
  /\ (forall w : str, predict_word math_exp tr opts w <> OutOfFuel)
  /\ (forall (w : str) (extra : nat),
         predict_word_fuel math_exp tr opts (loop_budget opts + extra) w
         = predict_word math_exp tr opts w).
Proof.
  assert (Hloop : forall (ls : LoopState State) (extra : nat),
             exists rs e k end_,
               loop (Z.to_nat (variants_number opts - n_variants ls) + extra) ls
               = Some (rs, e)
               /\ iter k ls = Some end_
               /\ exit end_ = Some e
               /\ rs = out_results end_
               /\ (k <= Z.to_nat (variants_number opts - n_variants ls))%nat).
  { intros ls extra.
    destruct (while_loop_total
                (Z.to_nat (variants_number opts - n_variants ls)) ls
                (Nat.le_refl _)) as [[rs e] Hr].
    destruct (while_loop_inv _ _ _ _ Hr) as (k & end_ & Hk & Hit & Hrs & Hex).
    exists rs, e, k, end_. repeat split; try assumption.
    apply (while_loop_mono _ _ _ _ Hr). lia. }
  assert (Hstart : forall (st : State) (extra : nat),
             exists r,
               loop (loop_budget opts) (loop_start st) = Some r
               /\ loop (loop_budget opts + extra) (loop_start st) = Some r).
  { intros st extra.
    assert (Hfuel : (Z.to_nat (variants_number opts
                               - n_variants (loop_start st))
                     <= loop_budget opts)%nat).
    { unfold loop_budget, loop_start. simpl. lia. }
    destruct (while_loop_total _ _ Hfuel) as [r Hr].
    exists r. split; [exact Hr |].
    apply (while_loop_mono _ _ _ _ Hr). lia. }
  split; [exact Hloop |]. split; [| split].
  - intros ls ls' Hb. apply loop_body_Continue in Hb.
    destruct Hb as (ll & res & st' & p & _ & _ & ->). reflexivity.
  - intros w. unfold predict_word, predict_word_fuel.
    destruct (nBestInit tr w) as [e | st]; [destruct e; discriminate |].
    destruct (Hstart st 0%nat) as ([rs e] & Hr & _). rewrite Hr.
    destruct e as [e |]; [destruct e |]; discriminate.
  - intros w extra. unfold predict_word, predict_word_fuel.
    destruct (nBestInit tr w) as [e | st]; [reflexivity |].
    destruct (Hstart st extra) as (r & Hr & Hr'). rewrite Hr, Hr'.
    reflexivity.
Qed.

(** C10: when, after [k] candidates were appended, [nBestNext] raises
    [TranslationFailure], the record yielded for the word keeps these [k]
    entries and no exception leaves [predict]: the handler encloses the
    whole loop. *)
Theorem C10_failure_in_loop_keeps_partial_results (w : str) (st : State)
        (k : nat) (ls : LoopState State) :
  nBestInit tr w = inr st ->
  iterate math_exp tr opts k (loop_start st) = Some ls ->
  nBestNext tr (n_best ls) = inl TranslationFailure ->
  predict_word math_exp tr opts w
  = Ok {| word := w; results := out_results ls |}
  /\ length (out_results ls) = k.
Proof.
  intros Hinit Hit Hfail. split.
  - apply (predict_word_runs w st k ls Hinit Hit).
    unfold loop_exit, loop_body. rewrite Hfail.
    destruct (cond ls); auto.
  - destruct (iterate_results k _ _ Hit) as (added & Hres & Hlen & _).
    rewrite Hres. simpl. exact Hlen.
Qed.

End PredictFacts.

(** ** The batch driver *)

Section DriverFacts.

Variable State : Type.
Variable math_exp : float -> option float.
Variable lower : str -> str.
Variable G2P_MODEL : option str.
Variable load_translator : Options -> Translator State.

Local Abbreviation defaults := (default_options G2P_MODEL).

(** The words [get_phones] hands to [predict] for an utterance. *)
Local Abbreviation words_of utt :=
  (map (fun w => normalize_word lower w SUB_PATTERN) (split (strip utt))).

(** Reading the first pronunciation of every record fails at the first
    record without entries. *)
Lemma first_pronunciations_raise (preds : list Output) :
  Exists (fun pred => results pred = []) preds ->
  mapM first_pronunciation preds = Raise IndexError.
Proof.
  induction preds as [| p r IH]; intros H.
  - inversion H.
  - simpl. unfold first_pronunciation at 1.
    destruct (results p) as [| e es] eqn:Hp; [reflexivity |].
    simpl. inversion H as [? ? Hhd | ? ? Htl]; subst.
    + congruence.
    + rewrite (IH Htl). reflexivity.
Qed.

Lemma first_pronunciations_Ok (preds : list Output) :
  Forall (fun pred => results pred <> []) preds ->
  mapM first_pronunciation preds = Ok (map top_pronunciation preds).
Proof.
  intros H. apply mapM_Ok_all. intros p Hin.
  rewrite Forall_forall in H. specialize (H p Hin).
  unfold first_pronunciation, top_pronunciation.
  destruct (results p); [contradiction | reflexivity].
Qed.

(** [get_phones] raises [IndexError] as soon as the record of one word of
    the utterance has no entry. *)
Lemma get_phones_raises (utt : str) (preds : list Output) :
  predict math_exp (load_translator defaults) defaults (words_of utt)
  = Ok preds ->
  Exists (fun pred => results pred = []) preds ->
  get_phones math_exp lower G2P_MODEL load_translator utt None
  = Raise IndexError.
Proof.
  intros Hpred Hex. unfold get_phones. rewrite Hpred. simpl.
  apply first_pronunciations_raise. exact Hex.
Qed.

Lemma get_phones_Ok (utt : str) (preds : list Output) :
  predict math_exp (load_translator defaults) defaults (words_of utt)
  = Ok preds ->
  Forall (fun pred => results pred <> []) preds ->
  get_phones math_exp lower G2P_MODEL load_translator utt None
  = Ok (map top_pronunciation preds).
Proof.
  intros Hpred Hall. unfold get_phones. rewrite Hpred. simpl.
  apply first_pronunciations_Ok. exact Hall.
Qed.

(** An exception [get_phones] raises for a line leaves [g2p_file], whatever
    the lines after it are, when the lines before it raise none. *)
Lemma g2p_file_raises (pre post : list str) (line : str) (n_jobs : Z)
      (translator_options : option Options) (e : exn) :
  (0 < n_jobs)%Z ->
  (forall l, In l pre ->
     exists phones,
       get_phones math_exp lower G2P_MODEL load_translator l None
       = Ok phones) ->
  get_phones math_exp lower G2P_MODEL load_translator line None = Raise e ->
  g2p_file math_exp lower G2P_MODEL load_translator (pre ++ line :: post)
           n_jobs translator_options
  = Raise e.
Proof.
  intros Hjobs Hpre Hline. unfold g2p_file.
  destruct (n_jobs <=? 0)%Z eqn:Hn; [apply Z.leb_le in Hn; lia |].
  rewrite (mapM_Raise _ e pre post line); [reflexivity | |].
  - intros l Hin. destruct (Hpre l Hin) as [phones Hl]. rewrite Hl.
    simpl. eauto.
  - rewrite Hline. reflexivity.
Qed.

(** C9, as the code has it: when every word of every line gets at least
    one entry, [g2p_file] writes one string for each line, in the order of
    the lines: the line stripped, a tab, a tilde and a space, the
    best-ranked pronunciation of each of its words joined by tabs, a space,
    a tilde and a newline. *)
Theorem C9_one_formatted_line_per_input_line
        (lines : list str) (n_jobs : Z) (translator_options : option Options)
        (preds_of : str -> list Output) :
  (0 < n_jobs)%Z ->
  (forall line, In line lines ->
     predict math_exp (load_translator defaults) defaults (words_of line)
     = Ok (preds_of line)
     /\ Forall (fun pred => results pred <> []) (preds_of line)) ->
  g2p_file math_exp lower G2P_MODEL load_translator lines n_jobs
           translator_options
  = Ok (map (fun line =>
               strip line ++ [9; 126; 32]%Z
               ++ join [9%Z] (map top_pronunciation (preds_of line))
               ++ [32; 126; 10]%Z)
            lines).
Proof.
  intros Hjobs Hlines. unfold g2p_file.
  destruct (n_jobs <=? 0)%Z eqn:Hn; [apply Z.leb_le in Hn; lia |].
  rewrite (mapM_Ok_all _
             (fun line => (line, map top_pronunciation (preds_of line)))).
  - simpl. rewrite map_map. reflexivity.
  - intros line Hin. destruct (Hlines line Hin) as [Hpred Hall].
    rewrite (get_phones_Ok line (preds_of line) Hpred Hall). reflexivity.
Qed.

End DriverFacts.

(** ** normalize_word *)

(** The code points of the configured alphabet. *)
Example ICE_ALPHABET_code_points :
  Conf.ICE_ALPHABET =
  [97; 225; 98; 100; 240; 101; 233; 102; 103; 104; 105; 237; 106; 107; 108;
   109; 110; 111; 243; 112; 114; 115; 116; 117; 250; 118; 120; 121; 253;
   254; 230; 246]%Z.
Proof. vm_compute. reflexivity. Qed.

(** None of them is special inside a character class, so the class of
    [SUB_PATTERN] has exactly these members. *)
Example SUB_PATTERN_body_is_literal :
  Re.literal_body Conf.ICE_ALPHABET = true.
Proof. vm_compute. reflexivity. Qed.

(** C8: [normalize_word] lowercases the word and then keeps, in order, the
    characters that are members of the alphabet of the pattern, and only
    them, for any alphabet and for [ICE_ALPHABET] of [SUB_PATTERN]; so [Hús!] becomes [hús] when the alphabet holds h, ú and s and no
    exclamation mark, and [X7] becomes the empty string when it holds
    neither x nor 7. *)
Theorem C8_normalize_word_lowers_then_filters
        (lower : str -> str) (alphabet : str) :
  (forall word,
      normalize_word lower word (Re.NegClass alphabet)
      = filter (fun c => mem c alphabet) (lower word))
  /\ (forall word,
        normalize_word lower word SUB_PATTERN
        = filter (fun c => mem c Conf.ICE_ALPHABET) (lower word))
  /\ (lower (lit "Hús!") = lit "hús!" ->
      mem 104%Z alphabet = true -> mem 250%Z alphabet = true ->
      mem 115%Z alphabet = true -> mem 33%Z alphabet = false ->
      normalize_word lower (lit "Hús!") (Re.NegClass alphabet) = lit "hús")
  /\ (lower (lit "X7") = lit "x7" ->
      mem 120%Z alphabet = false -> mem 55%Z alphabet = false ->
      normalize_word lower (lit "X7") (Re.NegClass alphabet) = []).
Proof.
  assert (Hany : forall members word,
             normalize_word lower word (Re.NegClass members)
             = filter (fun c => mem c members) (lower word)).
  { intros members word. unfold normalize_word.
    induction (lower word) as [| c r IH]; [reflexivity |].
    simpl. rewrite IH. destruct (mem c members); reflexivity. }
  pose proof (Hany alphabet) as Hgen.
  split; [exact Hgen |]. split; [exact (Hany Conf.ICE_ALPHABET) |]. split.
  - intros Hlow Hh Hu Hs Hbang. rewrite Hgen, Hlow.
    change (lit "hús!") with [104; 250; 115; 33]%Z.
    change (lit "hús") with [104; 250; 115]%Z.
    simpl. rewrite Hh, Hu, Hs, Hbang. reflexivity.
  - intros Hlow Hx H7. rewrite Hgen, Hlow.
    change (lit "x7") with [120; 55]%Z.
    simpl. rewrite Hx, H7. reflexivity.
Qed.

(* ===================================================================== *)
(** * The code on concrete inputs *)
(* ===================================================================== *)

Module Runs.

Local Abbreviation tr := (Sample.translator Sample.lexicon).
Local Abbreviation kab :=
  {| posterior := 1%float; pronunciation := lit "k a b" |}.
Local Abbreviation newline := [10%Z].

(** The word [cab] with the defaults of [conf.py]: the first posterior is
    [1.0], which is not below [0.9], so the loop is left after one entry. *)
Example predict_cab_default_bounds :
  predict_word Sample.exp tr (Sample.options 4 Conf.VARIANTS_MASS) (lit "cab")
  = Ok {| word := lit "cab"; results := [kab] |}.
Proof. vm_compute. reflexivity. Qed.

(** C2 on [cab] with the bounds 4 and 1.5: two entries, the first below the
    bound. *)
Lemma C2_witness :
  (cumulative (map posterior [kab]) <? 1.5)%float = true.
Proof.
  eapply (C2_mass_below_limit_before_last
            Sample.ctx Sample.exp tr (Sample.options 4 1.5) (lit "cab")
            _ [kab]).
  - vm_compute. reflexivity.
  - reflexivity.
Defined.

(** C3 on [cab] with the bounds 1 and 1.5: one entry. *)
Lemma C3_witness :
  (Z.of_nat (length (results {| word := lit "cab"; results := [kab] |}))
   <= variants_number (Sample.options 1 1.5))%Z.
Proof.
  apply (C3_results_at_most_variants_number
           Sample.ctx Sample.exp tr (Sample.options 1 1.5) (lit "cab")).
  - simpl. lia.
  - vm_compute. reflexivity.
Defined.

(** C4 on [cab] with the default bounds: the first candidate has the total
    log-likelihood [-1.0]. *)
Lemma C4_witness :
  Forall2 (entry_of Sample.exp tr) (candidates tr 1 Sample.cab) [kab]
  /\ posterior kab = 1%float.
Proof.
  destruct (C4_posterior_is_exp_of_difference
              Sample.ctx Sample.exp tr (Sample.options 4 Conf.VARIANTS_MASS)
              (lit "cab") Sample.cab
              {| word := lit "cab"; results := [kab] |}
              eq_refl predict_cab_default_bounds) as [Hall Hfirst].
  split; [exact Hall |].
  eapply Hfirst; reflexivity.
Defined.

(** C5 on [þak], which the translator does not know, followed by [hús]. *)
Lemma C5_witness :
  predict_word Sample.exp tr (Sample.options 4 Conf.VARIANTS_MASS) (lit "þak")
  = Ok {| word := lit "þak"; results := [] |}
  /\ predict Sample.exp tr (Sample.options 4 Conf.VARIANTS_MASS)
             [lit "þak"; lit "hús"]
     = (outs <- predict Sample.exp tr (Sample.options 4 Conf.VARIANTS_MASS)
                        [lit "hús"] ;;
        Ok ({| word := lit "þak"; results := [] |} :: outs)).
Proof.
  apply (C5_init_failure_yields_empty_record
           Sample.ctx Sample.exp tr (Sample.options 4 Conf.VARIANTS_MASS)).
  reflexivity.
Defined.

(** C6 on [cab] with the bounds 4 and 1.5: the search is exhausted after
    two candidates, before either bound. *)
Lemma C6_witness :
  exists ls,
    iterate Sample.exp tr (Sample.options 4 1.5) 2 (loop_start Sample.cab)
    = Some ls
    /\ predict_word Sample.exp tr (Sample.options 4 1.5) (lit "cab")
       = Ok {| word := lit "cab"; results := out_results ls |}
    /\ length (out_results ls) = 2%nat.
Proof.
  eexists. split.
  - vm_compute. reflexivity.
  - apply (C6_exhaustion_ends_loop_silently
             Sample.ctx Sample.exp tr (Sample.options 4 1.5) (lit "cab")
             Sample.cab).
    + reflexivity.
    + vm_compute. reflexivity.
    + reflexivity.
Defined.

(** C10 on [á], whose second retrieval raises [TranslationFailure]. *)
Lemma C10_witness :
  exists ls,
    iterate Sample.exp tr (Sample.options 4 Conf.VARIANTS_MASS) 1
            (loop_start Sample.broken)
    = Some ls
    /\ predict_word Sample.exp tr (Sample.options 4 Conf.VARIANTS_MASS)
                    (lit "á")
       = Ok {| word := lit "á"; results := out_results ls |}
    /\ length (out_results ls) = 1%nat.
Proof.
  eexists. split.
  - vm_compute. reflexivity.
  - apply (C10_failure_in_loop_keeps_partial_results
             Sample.ctx Sample.exp tr (Sample.options 4 Conf.VARIANTS_MASS)
             (lit "á") Sample.broken).
    + reflexivity.
    + vm_compute. reflexivity.
    + reflexivity.
Defined.

(** C8 on the two examples, with the configured alphabet and with [abc]. *)
Lemma C8_witness :
  normalize_word latin1_lower (lit "Hús!") SUB_PATTERN = lit "hús"
  /\ normalize_word latin1_lower (lit "X7") (Re.NegClass (lit "abc")) = [].
Proof.
  split.
  - apply (C8_normalize_word_lowers_then_filters
             latin1_lower Conf.ICE_ALPHABET); reflexivity.
  - apply (C8_normalize_word_lowers_then_filters latin1_lower (lit "abc"));
      reflexivity.
Defined.

(** The configured alphabet holds the letter x: there, [X7] becomes [x]. *)
Example normalize_X7_configured_alphabet :
  normalize_word latin1_lower (lit "X7") SUB_PATTERN = lit "x".
Proof. vm_compute. reflexivity. Qed.

(** The records of the words of [hús þak], with the defaults. *)
Local Abbreviation hus_thak_preds :=
  [ {| word := lit "hús";
       results := [ {| posterior := 1%float;
                       pronunciation := lit "h u: s" |} ] |};
    {| word := lit "þak"; results := [] |} ].

(** C1, on the utterance [hús þak] with a translator that fails on [þak]:
    [predict] yields a record without entries for [þak]; [get_phones]
    raises [IndexError] on it; and [g2p_file] raises it for a file with
    this line and writes nothing, whatever its other lines are. *)
Theorem C1_failed_word_aborts_batch :
  predict Sample.exp tr (default_options None) [lit "hús"; lit "þak"]
  = Ok hus_thak_preds
  /\ get_phones Sample.exp latin1_lower None Sample.load (lit "hús þak") None
     = Raise IndexError
  /\ g2p_file Sample.exp latin1_lower None Sample.load
              [lit "hús og" ++ newline; lit "hús þak" ++ newline] 16 None
     = Raise IndexError.
Proof.
  assert (Hpred : predict Sample.exp tr (default_options None)
                          [lit "hús"; lit "þak"]
                  = Ok hus_thak_preds) by (vm_compute; reflexivity).
  assert (Hempty : Exists (fun pred => results pred = []) hus_thak_preds)
    by (apply Exists_cons_tl, Exists_cons_hd; reflexivity).
  split; [exact Hpred |]. split.
  - apply (get_phones_raises Sample.ctx Sample.exp latin1_lower None
                             Sample.load (lit "hús þak") hus_thak_preds);
      assumption.
  - apply (g2p_file_raises Sample.ctx Sample.exp latin1_lower None Sample.load
                           [lit "hús og" ++ newline] []
                           (lit "hús þak" ++ newline)).
    + lia.
    + intros l [<- | []]. eexists. vm_compute. reflexivity.
    + apply (get_phones_raises Sample.ctx Sample.exp latin1_lower None
                               Sample.load _ hus_thak_preds);
        [vm_compute; reflexivity | exact Hempty].
Qed.

(** C9, against the format as worded: the line [g2p_file] writes for
    [hús og] ends with a space and a tilde;
    it is not a line of the format of the specification, which ends with a
    tab and a tilde, whatever the pronunciations. *)
Lemma C9_counterexample :
  g2p_file Sample.exp latin1_lower None Sample.load
           [lit "hús og" ++ newline] 16 None
  = Ok [ lit "hús og" ++ [9%Z] ++ lit "~ h u: s" ++ [9%Z] ++ lit "O: G ~"
         ++ newline ]
  /\ forall phones : list str,
       g2p_file Sample.exp latin1_lower None Sample.load
                [lit "hús og" ++ newline] 16 None
       <> Ok [ spec_format_line (lit "hús og" ++ newline) phones ++ newline ]
       /\ g2p_file Sample.exp latin1_lower None Sample.load
                   [lit "hús og" ++ newline] 16 None
          <> Ok [ spec_format_line (lit "hús og" ++ newline) phones ].
Proof.
  assert (Hrun : g2p_file Sample.exp latin1_lower None Sample.load
                          [lit "hús og" ++ newline] 16 None
                 = Ok [ lit "hús og" ++ [9%Z] ++ lit "~ h u: s" ++ [9%Z]
                        ++ lit "O: G ~" ++ newline ])
    by (vm_compute; reflexivity).
  split; [exact Hrun |].
  intros phones. rewrite Hrun. unfold spec_format_line.
  split; intros H; inversion H as [Heq]; apply (f_equal (@rev Z)) in Heq;
    repeat rewrite ?rev_app_distr, <- ?app_assoc in Heq;
    vm_compute in Heq; discriminate Heq.
Qed.

(** C9 on a file of two lines, [Hús og] and an empty one. *)
Lemma C9_witness :
  g2p_file Sample.exp latin1_lower None Sample.load
           [lit "Hús og" ++ newline; newline] 16 None
  = Ok [ lit "Hús og" ++ [9%Z] ++ lit "~ h u: s" ++ [9%Z] ++ lit "O: G ~"
         ++ newline;
         [9%Z] ++ lit "~  ~" ++ newline ].
Proof.
  apply (C9_one_formatted_line_per_input_line
           Sample.ctx Sample.exp latin1_lower None Sample.load
           [lit "Hús og" ++ newline; newline] 16 None
           (fun line =>
              match line with
              | [_] => []
              | _ => [ {| word := lit "hús";
                          results := [ {| posterior := 1%float;
                                          pronunciation := lit "h u: s" |} ] |};
                       {| word := lit "og";
                          results := [ {| posterior := 1%float;
                                          pronunciation := lit "O: G" |} ] |} ]
              end)).
  - lia.
  - intros line [<- | [<- | []]]; split;
      try (vm_compute; reflexivity);
      repeat constructor; discriminate.
Defined.

End Runs.

(* ===================================================================== *)
(** * Further properties of the code *)
(* ===================================================================== *)

(** ** Sequencing *)

Lemma mapM_Ok_inv {A B : Type} (f : A -> outcome B) (l : list A) (bs : list B) :
  mapM f l = Ok bs -> Forall2 (fun a b => f a = Ok b) l bs.
Proof.
  revert bs. induction l as [| a r IH]; intros bs H; simpl in H.
  - inversion H. constructor.
  - destruct (f a) as [b | e |] eqn:Ha; simpl in H; try discriminate.
    destruct (mapM f r) as [bs' | e |]; simpl in H; try discriminate.
    inversion H. subst. constructor; auto.
Qed.

Lemma mapM_Raise_inv {A B : Type} (f : A -> outcome B) (l : list A) (e : exn) :
  mapM f l = Raise e -> exists a, In a l /\ f a = Raise e.
Proof.
  induction l as [| a r IH]; intros H; simpl in H; [discriminate |].
  destruct (f a) as [b | e' |] eqn:Ha; simpl in H; try discriminate.
  - destruct (mapM f r) as [bs' | e' |]; simpl in H; try discriminate.
    inversion H. subst. destruct (IH eq_refl) as (x & Hin & Hx).
    exists x. split; [right; assumption | assumption].
  - inversion H. subst. exists a. split; [left; reflexivity | assumption].
Qed.

Lemma mapM_OutOfFuel_inv {A B : Type} (f : A -> outcome B) (l : list A) :
  mapM f l = OutOfFuel -> exists a, In a l /\ f a = OutOfFuel.
Proof.
  induction l as [| a r IH]; intros H; simpl in H; [discriminate |].
  destruct (f a) as [b | e' |] eqn:Ha; simpl in H; try discriminate.
  - destruct (mapM f r) as [bs' | e' |]; simpl in H; try discriminate.
    destruct (IH eq_refl) as (x & Hin & Hx).
    exists x. split; [right; assumption | assumption].
  - exists a. split; [left; reflexivity | assumption].
Qed.

Lemma mapM_app {A B : Type} (f : A -> outcome B) (l1 l2 : list A) :
  mapM f (l1 ++ l2)
  = (bs1 <- mapM f l1 ;; bs2 <- mapM f l2 ;; Ok (bs1 ++ bs2)).
Proof.
  induction l1 as [| a r IH]; simpl.
  - destruct (mapM f l2); reflexivity.
  - destruct (f a) as [b | e |]; simpl; try reflexivity.
    rewrite IH. destruct (mapM f r) as [bs1 | e |]; simpl; try reflexivity.
    destruct (mapM f l2); reflexivity.
Qed.

Lemma Forall2_length_eq {A B : Type} (R : A -> B -> Prop) (l : list A)
      (l' : list B) :
  Forall2 R l l' -> length l = length l'.
Proof. induction 1; simpl; congruence. Qed.

(** ** predict, beyond one word *)

Section PredictMore.

Variable State : Type.
Variable math_exp : float -> option float.
Variable tr : Translator State.
Variable opts : Options.

Local Abbreviation cond := (loop_cond opts).
Local Abbreviation body := (loop_body math_exp tr).
Local Abbreviation iter := (iterate math_exp tr opts).
Local Abbreviation exit := (loop_exit math_exp tr opts).

(** X1: when [list(predict(words))] returns, it holds one record for each
    word, in the order of the words, and each record carries its word. *)
Theorem X1_predict_one_record_per_word (words : list str)
        (outs : list Output) :
  predict math_exp tr opts words = Ok outs ->
  map word outs = words.
Proof.
  intros H. apply mapM_Ok_inv in H.
  induction H as [| w out ws os Hw _ IH]; [reflexivity |].
  simpl. rewrite IH. f_equal.
  apply predict_word_fuel_Ok in Hw. destruct Hw as [Hw _]. exact Hw.
Qed.

(** X2: the words are handled independently, from left to right: the
    records of a list of words are those of a first part followed by those
    of the rest, and an exception in the first part leaves the rest
    untouched. *)
Theorem X2_predict_app (ws1 ws2 : list str) :
  predict math_exp tr opts (ws1 ++ ws2)
  = (outs1 <- predict math_exp tr opts ws1 ;;
     outs2 <- predict math_exp tr opts ws2 ;;
     Ok (outs1 ++ outs2)).
Proof. unfold predict. apply mapM_app. Qed.

(** Neither of the two exceptions the loop handles leaves the body of
    [predict] for a word. *)
Lemma predict_word_never_handled (w : str) :
  predict_word math_exp tr opts w <> Raise TranslationFailure
  /\ predict_word math_exp tr opts w <> Raise StopIteration.
Proof.
  unfold predict_word, predict_word_fuel.
  destruct (nBestInit tr w) as [e | st].
  - destruct e; split; discriminate.
  - destruct (while_loop math_exp tr opts (loop_budget opts) (loop_start st))
      as [[rs [e |]] |]; [destruct e | |]; split; discriminate.
Qed.

(** Whatever the translator does, neither [TranslationFailure] nor
    [StopIteration] leaves [predict]. *)
Lemma predict_never_handled (words : list str) :
  predict math_exp tr opts words <> Raise TranslationFailure
  /\ predict math_exp tr opts words <> Raise StopIteration.
Proof.
  split; intros H; apply mapM_Raise_inv in H; destruct H as (w & _ & Hw);
    destruct (predict_word_never_handled w) as [H1 H2]; contradiction.
Qed.

(** X4: with a variant bound that is not positive, or a mass bound that
    [0.0] is not below (zero, negative or not a number), the loop body never
    runs: every record has an empty list. *)
Theorem X4_no_entry_without_positive_bounds (w : str) (out : Output) :
  (variants_number opts <= 0)%Z
  \/ (0 <? variants_mass opts)%float = false ->
  predict_word math_exp tr opts w = Ok out ->
  results out = [].
Proof.
  intros Hbound Hout.
  apply predict_word_fuel_Ok in Hout.
  destruct Hout as (_ & [[_ Hnil] | (st & k & end_ & _ & Hit & Hrs & _)]);
    [exact Hnil |].
  destruct k as [| k].
  - simpl in Hit. inversion Hit. subst. exact Hrs.
  - rewrite iterate_S in Hit.
    assert (Hc : cond (loop_start st) = false).
    { unfold loop_cond, loop_start. simpl.
      destruct Hbound as [Hn | Hm].
      - apply andb_false_intro2. apply Z.ltb_ge. exact Hn.
      - apply andb_false_intro1. exact Hm. }
    rewrite Hc in Hit. discriminate.
Qed.

(** X5: with positive bounds, a word whose search hands out a first
    candidate gets that candidate's entry at the head of its list. *)
Theorem X5_first_candidate_is_first_entry (w : str) (st st' : State)
        (log_like p : float) (result : list str) (out : Output) :
  (0 < variants_number opts)%Z ->
  (0 <? variants_mass opts)%float = true ->
  nBestInit tr w = inr st ->
  nBestNext tr st = inr (log_like, result, st') ->
  math_exp (log_like - logLikTotal tr st')%float = Some p ->
  predict_word math_exp tr opts w = Ok out ->
  exists rest,
    results out
    = {| posterior := p; pronunciation := join (lit " ") result |} :: rest.
Proof.
  intros Hn Hm Hinit Hnext Hexp Hout.
  apply predict_word_fuel_Ok in Hout.
  destruct Hout as (_ & [[Hfail _] | (st0 & k & end_ & Hinit' & Hit & Hrs & Hex)]).
  { rewrite Hinit in Hfail. discriminate. }
  rewrite Hinit in Hinit'. inversion Hinit'. subst st0.
  assert (Hc : cond (loop_start st) = true).
  { unfold loop_cond, loop_start. simpl. rewrite Hm.
    apply Z.ltb_lt in Hn. rewrite Hn. reflexivity. }
  assert (Hb : exists l1, body (loop_start st) = Continue l1
                          /\ out_results l1
                             = [ {| posterior := p;
                                    pronunciation := join (lit " ") result |} ]).
  { unfold loop_body, loop_start. simpl. rewrite Hnext, Hexp.
    eexists. split; reflexivity. }
  destruct Hb as (l1 & Hb & Hl1).
  destruct k as [| k].
  - simpl in Hit. inversion Hit. subst end_.
    unfold loop_exit in Hex. rewrite Hc, Hb in Hex.
    destruct Hex; discriminate.
  - rewrite iterate_S, Hc, Hb in Hit.
    destruct (iterate_results _ _ _ _ k l1 end_ Hit) as (added & Hres & _).
    exists added. rewrite Hrs, Hres, Hl1. reflexivity.
Qed.

(** X6: when the first posterior alone is not below the mass bound, the
    list of the word has this one entry, whatever further candidates the
    search would hand out. *)
Theorem X6_mass_reached_by_first_entry (w : str) (st st' : State)
        (log_like p : float) (result : list str) :
  (0 < variants_number opts)%Z ->
  (0 <? variants_mass opts)%float = true ->
  nBestInit tr w = inr st ->
  nBestNext tr st = inr (log_like, result, st') ->
  math_exp (log_like - logLikTotal tr st')%float = Some p ->
  (0 + p <? variants_mass opts)%float = false ->
  predict_word math_exp tr opts w
  = Ok {| word := w;
          results := [ {| posterior := p;
                          pronunciation := join (lit " ") result |} ] |}.
Proof.
  intros Hn Hm Hinit Hnext Hexp Hp.
  assert (Hc : cond (loop_start st) = true).
  { unfold loop_cond, loop_start. simpl. rewrite Hm.
    apply Z.ltb_lt in Hn. rewrite Hn. reflexivity. }
  set (l1 := {| n_best := st';
                total_posterior := (0 + p)%float;
                n_variants := (0 + 1)%Z;
                out_results :=
                  [] ++ [ {| posterior := p;
                             pronunciation := join (lit " ") result |} ] |}).
  assert (Hb : body (loop_start st) = Continue l1).
  { unfold loop_body, loop_start. simpl. rewrite Hnext, Hexp. reflexivity. }
  assert (Hit : iter 1 (loop_start st) = Some l1).
  { rewrite iterate_S, Hc, Hb. reflexivity. }
  assert (Hex : exit l1 = Some None).
  { unfold loop_exit, loop_cond. subst l1. simpl. rewrite Hp. reflexivity. }
  rewrite (predict_word_runs _ _ _ _ w st 1 l1 Hinit Hit (or_introl Hex)).
  reflexivity.
Qed.

(** X7: an exception raised during a retrieval that is neither
    [StopIteration] nor [TranslationFailure] (the [OverflowError] of
    [math.exp] among them) leaves [predict]: no record is yielded for the
    word, and the entries appended before are lost with it. *)
Theorem X7_other_exceptions_propagate (w : str) (st : State) (k : nat)
        (ls : LoopState State) (e : exn) :
  nBestInit tr w = inr st ->
  iterate math_exp tr opts k (loop_start st) = Some ls ->
  loop_exit math_exp tr opts ls = Some (Some e) ->
  e <> TranslationFailure ->
  predict_word math_exp tr opts w = Raise e
  /\ forall ws, predict math_exp tr opts (w :: ws) = Raise e.
Proof.
  intros Hinit Hit Hex Hne.
  assert (Hw : predict_word math_exp tr opts w = Raise e).
  { unfold predict_word, predict_word_fuel. rewrite Hinit.
    assert (Hfuel : (Z.to_nat (variants_number opts
                               - n_variants (loop_start st))
                     <= loop_budget opts)%nat).
    { unfold loop_budget, loop_start. simpl. lia. }
    rewrite (while_loop_runs _ _ _ _ k _ _ ls _ Hit Hex Hfuel).
    assert (Hns : e <> StopIteration).
    { intros ->. unfold loop_exit, loop_body in Hex.
      destruct (cond ls); [| discriminate].
      destruct (nBestNext tr (n_best ls)) as [x | [[ll res] s']].
      - destruct x; discriminate.
      - destruct (math_exp (ll - logLikTotal tr s')%float); discriminate. }
    destruct e; try reflexivity; contradiction. }
  split; [exact Hw |].
  intros ws. unfold predict. simpl. fold (predict_word math_exp tr opts w).
  rewrite Hw. reflexivity.
Qed.

End PredictMore.

(** ** Whitespace: strip and split *)

Lemma split_from_spaces (ws cur : str) :
  forallb isspace ws = true ->
  split_from cur ws = match cur with [] => [] | _ => [rev cur] end.
Proof.
  revert cur. induction ws as [| c r IH]; intros cur H; [reflexivity |].
  simpl in H. apply andb_prop in H. destruct H as [Hc Hr].
  simpl. rewrite Hc. rewrite (IH [] Hr). destruct cur; reflexivity.
Qed.

Lemma split_from_app_spaces (s ws cur : str) :
  forallb isspace ws = true ->
  split_from cur (s ++ ws) = split_from cur s.
Proof.
  intros H. revert cur. induction s as [| c r IH]; intros cur.
  - simpl. apply split_from_spaces. exact H.
  - simpl. destruct (isspace c).
    + rewrite IH. destruct cur; reflexivity.
    + apply IH.
Qed.

(** [lstrip] removes a prefix of whitespace. *)
Lemma lstrip_prefix (s : str) :
  exists ws, s = ws ++ lstrip s /\ forallb isspace ws = true.
Proof.
  induction s as [| c r (ws & Heq & Hws)].
  - exists []. split; reflexivity.
  - simpl. destruct (isspace c) eqn:Hc.
    + exists (c :: ws). split.
      * simpl. f_equal. exact Heq.
      * simpl. rewrite Hc. exact Hws.
    + exists []. split; reflexivity.
Qed.

Lemma split_lstrip (s : str) : split (lstrip s) = split s.
Proof.
  unfold split. induction s as [| c r IH]; [reflexivity |].
  simpl. destruct (isspace c) eqn:Hc; [exact IH |].
  simpl. rewrite Hc. reflexivity.
Qed.

Lemma forallb_rev {A : Type} (f : A -> bool) (l : list A) :
  forallb f (rev l) = forallb f l.
Proof.
  induction l as [| a r IH]; [reflexivity |].
  simpl. rewrite forallb_app, IH. simpl. rewrite andb_true_r.
  apply andb_comm.
Qed.

(** [utt.strip().split()] is [utt.split()]. *)
Lemma split_strip (s : str) : split (strip s) = split s.
Proof.
  unfold strip. rewrite <- (split_lstrip s).
  destruct (lstrip_prefix (rev (lstrip s))) as (ws & Heq & Hws).
  assert (Hs : lstrip s = rev (lstrip (rev (lstrip s))) ++ rev ws).
  { rewrite <- rev_app_distr, <- Heq, rev_involutive. reflexivity. }
  rewrite Hs at 2. unfold split.
  rewrite split_from_app_spaces; [reflexivity |].
  rewrite forallb_rev. exact Hws.
Qed.

Lemma lstrip_spaces (s : str) : forallb isspace s = true -> lstrip s = [].
Proof.
  induction s as [| c r IH]; intros H; [reflexivity |].
  simpl in H. apply andb_prop in H. destruct H as [Hc Hr].
  simpl. rewrite Hc. auto.
Qed.

Lemma strip_spaces (s : str) : forallb isspace s = true -> strip s = [].
Proof.
  intros H. unfold strip. rewrite (lstrip_spaces s H). reflexivity.
Qed.

Lemma split_spaces (s : str) : forallb isspace s = true -> split s = [].
Proof. intros H. unfold split. apply (split_from_spaces s [] H). Qed.

(** ** get_phones and g2p_file, beyond the format of a line *)

Section DriverMore.

Variable State : Type.
Variable math_exp : float -> option float.
Variable lower : str -> str.
Variable G2P_MODEL : option str.
Variable load_translator : Options -> Translator State.

(** The options and the translator [get_phones] works with. *)
Local Abbreviation options_for o :=
  (match o with None => default_options G2P_MODEL | Some o' => o' end).
Local Abbreviation phones_of utt o :=
  (get_phones math_exp lower G2P_MODEL load_translator utt o).
Local Abbreviation predict_for o ws :=
  (predict math_exp (load_translator (options_for o)) (options_for o) ws).
Local Abbreviation normalized ws :=
  (map (fun w => normalize_word lower w SUB_PATTERN) ws).

Lemma get_phones_tokens (utt : str) (o : option Options) :
  phones_of utt o
  = (predictions <- predict_for o (normalized (split utt)) ;;
     mapM first_pronunciation predictions).
Proof. unfold get_phones. rewrite split_strip. destruct o; reflexivity. Qed.

(** What [get_phones] returns is read off records that all have an
    entry. *)
Lemma get_phones_Ok_inv (utt : str) (o : option Options) (phones : list str) :
  phones_of utt o = Ok phones ->
  exists preds,
    predict_for o (normalized (split utt)) = Ok preds
    /\ Forall (fun pred => results pred <> []) preds
    /\ phones = map top_pronunciation preds.
Proof.
  rewrite get_phones_tokens. intros H.
  destruct (predict_for o (normalized (split utt))) as [preds | e |] eqn:Hp;
    simpl in H; try discriminate.
  pose proof (mapM_Ok_inv _ _ _ H) as Hfirst.
  - exists preds. split; [reflexivity |].
    clear Hp H.
    induction Hfirst as [| pred phone ps phs Hhd _ [IH1 IH2]].
    + split; [constructor | reflexivity].
    + unfold first_pronunciation in Hhd.
      destruct (results pred) as [| r rs] eqn:Hr; [discriminate |].
      inversion Hhd. subst. split.
      * constructor; [cbv beta; rewrite Hr; discriminate | exact IH1].
      * cbn [map]. unfold top_pronunciation. rewrite Hr. reflexivity.
Qed.

(** X8: when [get_phones] returns, it returns one pronunciation for each
    whitespace-separated token of the utterance, in order, also for the
    tokens that normalisation empties: the pronunciation of the first entry
    of the record of the normalised token, and each of these records has an
    entry. *)
Theorem X8_get_phones_one_pronunciation_per_token
        (utt : str) (o : option Options) (phones : list str) :
  phones_of utt o = Ok phones ->
  length phones = length (split utt)
  /\ exists preds,
       predict_for o (normalized (split utt)) = Ok preds
       /\ Forall (fun pred => results pred <> []) preds
       /\ phones = map top_pronunciation preds.
Proof.
  intros H. destruct (get_phones_Ok_inv utt o phones H) as (preds & Hp & Hall & ->).
  split; [| exists preds; auto].
  apply mapM_Ok_inv, Forall2_length_eq in Hp.
  rewrite !length_map in *. symmetry. exact Hp.
Qed.

(** X9: an utterance without a token (empty, or whitespace only) gives the
    empty list, whatever the translator is. *)
Theorem X9_get_phones_blank_utterance (utt : str) (o : option Options) :
  forallb isspace utt = true ->
  phones_of utt o = Ok [].
Proof.
  intros H. rewrite get_phones_tokens, (split_spaces utt H). reflexivity.
Qed.

(** X10: [get_phones] sees an utterance through its tokens only: two
    utterances with the same tokens, whatever whitespace stands before,
    between and after them, have the same outcome. *)
Theorem X10_get_phones_whitespace_insensitive
        (utt1 utt2 : str) (o : option Options) :
  split utt1 = split utt2 ->
  phones_of utt1 o = phones_of utt2 o.
Proof. intros H. rewrite !get_phones_tokens, H. reflexivity. Qed.

(** X3: whatever the translator does, neither [TranslationFailure] nor
    [StopIteration] leaves [predict], [get_phones] or [g2p_file]. *)
Theorem X3_handled_exceptions_never_escape
        (words : list str) (utt : str) (o : option Options)
        (lines : list str) (n_jobs : Z) :
  (predict_for o words <> Raise TranslationFailure
   /\ predict_for o words <> Raise StopIteration)
  /\ (phones_of utt o <> Raise TranslationFailure
      /\ phones_of utt o <> Raise StopIteration)
  /\ (g2p_file math_exp lower G2P_MODEL load_translator lines n_jobs o
      <> Raise TranslationFailure
      /\ g2p_file math_exp lower G2P_MODEL load_translator lines n_jobs o
         <> Raise StopIteration).
Proof.
  assert (Hget : forall u o' e,
             e = TranslationFailure \/ e = StopIteration ->
             phones_of u o' <> Raise e).
  { intros u o' e He H. rewrite get_phones_tokens in H.
    destruct (predict_for o' (normalized (split u))) as [preds | x |] eqn:Hp;
      simpl in H; try discriminate.
    - apply mapM_Raise_inv in H. destruct H as (p & _ & Hp1).
      unfold first_pronunciation in Hp1.
      destruct (results p); [| discriminate].
      inversion Hp1. subst. destruct He; discriminate.
    - inversion H. subst x.
      destruct (predict_never_handled
                  State math_exp (load_translator (options_for o'))
                  (options_for o') (normalized (split u))) as [H1 H2].
      destruct He; subst; contradiction. }
  assert (Hfile : forall e,
             e = TranslationFailure \/ e = StopIteration ->
             g2p_file math_exp lower G2P_MODEL load_translator lines n_jobs o
             <> Raise e).
  { intros e He H. unfold g2p_file in H.
    destruct (n_jobs <=? 0)%Z.
    - inversion H. subst. destruct He; discriminate.
    - match type of H with
      | bind ?m _ = _ => destruct m as [rs | x |] eqn:Hm
      end; simpl in H; try discriminate.
      inversion H. subst x. apply mapM_Raise_inv in Hm.
      destruct Hm as (line & _ & Hline).
      destruct (phones_of line None) as [ph | x |] eqn:Hph;
        simpl in Hline; try discriminate.
      inversion Hline. subst x. exact (Hget line None e He Hph). }
  split; [apply predict_never_handled |].
  split; split; auto.
Qed.

(** What [g2p_file] writes comes line by line from what [get_phones]
    returns. *)
Lemma g2p_file_Ok_inv
      (lines : list str) (n_jobs : Z) (o : option Options)
      (written : list str) :
  g2p_file math_exp lower G2P_MODEL load_translator lines n_jobs o
  = Ok written ->
  (0 < n_jobs)%Z
  /\ Forall2 (fun line out =>
                exists phones,
                  phones_of line None = Ok phones
                  /\ out = format_line line phones)
             lines written.
Proof.
  unfold g2p_file. intros H.
  destruct (n_jobs <=? 0)%Z eqn:Hn; [discriminate |].
  apply Z.leb_gt in Hn.
  match type of H with
  | bind ?m _ = _ => destruct m as [rs | x |] eqn:Hm
  end; simpl in H; try discriminate.
  inversion H. subst written. clear H.
  apply mapM_Ok_inv in Hm.
  assert (Hall : Forall2 (fun line out =>
                            exists phones,
                              phones_of line None = Ok phones
                              /\ out = format_line line phones)
                         lines
                         (map (fun res => format_line (fst res) (snd res)) rs)).
  { induction Hm as [| line res ls rs' Hhd _ IH]; [constructor |].
    simpl. constructor; [| exact IH].
    destruct (phones_of line None) as [ph | x |]; simpl in Hhd;
      try discriminate.
    inversion Hhd. subst. exists ph. split; reflexivity. }
  split; [exact Hn | exact Hall].
Qed.

(** X11: [g2p_file] is all or nothing.  When it returns, the worker count
    was positive, [get_phones] returned for every line, and one string was
    written for each line, in order; so when [get_phones] raises for a
    line, nothing is written for any line. *)
Theorem X11_g2p_file_all_or_nothing
        (lines : list str) (n_jobs : Z) (o : option Options)
        (written : list str) :
  g2p_file math_exp lower G2P_MODEL load_translator lines n_jobs o
  = Ok written ->
  (0 < n_jobs)%Z
  /\ length written = length lines
  /\ Forall2 (fun line out =>
                exists phones,
                  phones_of line None = Ok phones
                  /\ out = format_line line phones)
             lines written.
Proof.
  intros H. destruct (g2p_file_Ok_inv lines n_jobs o written H) as [Hn Hall].
  split; [exact Hn |]. split; [| exact Hall].
  symmetry. apply (Forall2_length_eq _ _ _ Hall).
Qed.

(** X12: for a file of blank lines (empty, or whitespace only) [g2p_file]
    writes the line of no pronunciation, a tab, a tilde, two spaces, a tilde
    and a newline, for each of them, whatever the translator is. *)
Theorem X12_g2p_file_blank_lines
        (lines : list str) (n_jobs : Z) (o : option Options) :
  (0 < n_jobs)%Z ->
  Forall (fun line => forallb isspace line = true) lines ->
  g2p_file math_exp lower G2P_MODEL load_translator lines n_jobs o
  = Ok (map (fun _ => [9; 126; 32; 32; 126; 10]%Z) lines).
Proof.
  intros Hn Hblank. unfold g2p_file.
  destruct (n_jobs <=? 0)%Z eqn:Hle; [apply Z.leb_le in Hle; lia |].
  rewrite (mapM_Ok_all _ (fun line => (line, @nil str))).
  - simpl. rewrite map_map. f_equal.
    apply map_ext_in. intros line Hin.
    rewrite Forall_forall in Hblank.
    unfold format_line. simpl. rewrite (strip_spaces line (Hblank line Hin)).
    reflexivity.
  - intros line Hin. rewrite Forall_forall in Hblank.
    rewrite get_phones_tokens, (split_spaces line (Hblank line Hin)).
    reflexivity.
Qed.

End DriverMore.

(** ** normalize_word, beyond one call *)

Lemma normalize_word_filter (lower : str -> str) (members word : str) :
  normalize_word lower word (Re.NegClass members)
  = filter (fun c => mem c members) (lower word).
Proof.
  unfold normalize_word.
  induction (lower word) as [| c r IH]; [reflexivity |].
  simpl. rewrite IH. destruct (mem c members); reflexivity.
Qed.

Lemma filter_idempotent {A : Type} (f : A -> bool) (l : list A) :
  filter f (filter f l) = filter f l.
Proof.
  induction l as [| a r IH]; [reflexivity |].
  simpl. destruct (f a) eqn:Ha; [| exact IH].
  simpl. rewrite Ha, IH. reflexivity.
Qed.

(** X13: normalising a normalised word changes nothing, as soon as
    lowercasing leaves the words over the alphabet as they are (the
    configured alphabet has lowercase letters only). *)
Theorem X13_normalize_word_idempotent
        (lower : str -> str) (alphabet word : str) :
  (forall s, (forall c, In c s -> mem c alphabet = true) -> lower s = s) ->
  normalize_word lower (normalize_word lower word (Re.NegClass alphabet))
                 (Re.NegClass alphabet)
  = normalize_word lower word (Re.NegClass alphabet).
Proof.
  intros Hlow. rewrite !normalize_word_filter.
  rewrite (Hlow (filter (fun c => mem c alphabet) (lower word))).
  - apply filter_idempotent.
  - intros c Hin. apply filter_In in Hin. destruct Hin as [_ Hc]. exact Hc.
Qed.

(** X14: every word [get_phones] hands to [predict] is made of characters
    of [ICE_ALPHABET] only, whatever the utterance is: the translator never
    sees another character, a capital letter or whitespace. *)
Theorem X14_words_for_predict_over_alphabet
        (lower : str -> str) (utt w : str) (c : char) :
  In w (map (fun t => normalize_word lower t SUB_PATTERN) (split (strip utt))) ->
  In c w ->
  mem c Conf.ICE_ALPHABET = true.
Proof.
  intros Hw Hc. apply in_map_iff in Hw. destruct Hw as (t & <- & _).
  unfold SUB_PATTERN in Hc. rewrite normalize_word_filter in Hc.
  apply filter_In in Hc. destruct Hc as [_ Hc]. exact Hc.
Qed.

(** ** class Options *)

Lemma key_eqb_eq (a b : str) : Dict.key_eqb a b = true <-> a = b.
Proof.
  unfold Dict.key_eqb. destruct (list_eq_dec Z.eq_dec a b); split;
    intros H; try reflexivity; try assumption; try discriminate.
  contradiction.
Qed.

Lemma key_eqb_refl (a : str) : Dict.key_eqb a a = true.
Proof. apply key_eqb_eq. reflexivity. Qed.

Lemma key_eqb_neq (a b : str) : a <> b -> Dict.key_eqb a b = false.
Proof.
  intros H. destruct (Dict.key_eqb a b) eqn:E; [| reflexivity].
  apply key_eqb_eq in E. contradiction.
Qed.

Lemma getitem_setitem_same {V : Type} (d : Dict.dict V) (k : str) (v : V) :
  Dict.getitem k (Dict.setitem k v d) = Some v.
Proof.
  induction d as [| [k' v'] r IH]; simpl.
  - rewrite key_eqb_refl. reflexivity.
  - destruct (Dict.key_eqb k' k) eqn:E; simpl; rewrite E; auto.
Qed.

Lemma getitem_setitem_other {V : Type} (d : Dict.dict V) (k k' : str) (v : V) :
  k <> k' ->
  Dict.getitem k' (Dict.setitem k v d) = Dict.getitem k' d.
Proof.
  intros Hne. induction d as [| [k0 v0] r IH]; simpl.
  - rewrite (key_eqb_neq k k' Hne). reflexivity.
  - destruct (Dict.key_eqb k0 k) eqn:E; simpl.
    + apply key_eqb_eq in E. subst k0.
      rewrite (key_eqb_neq k k' Hne). reflexivity.
    + destruct (Dict.key_eqb k0 k'); [reflexivity | exact IH].
Qed.

Lemma getitem_None {V : Type} (d : Dict.dict V) (k : str) :
  Dict.getitem k d = None <-> ~ In k (Dict.keys d).
Proof.
  induction d as [| [k' v'] r IH]; simpl.
  - split; auto.
  - destruct (Dict.key_eqb k' k) eqn:E.
    + apply key_eqb_eq in E. split; [discriminate | intros H; tauto].
    + rewrite IH. split.
      * intros H [Heq | Hin]; [| tauto].
        apply key_eqb_eq in Heq. congruence.
      * tauto.
Qed.

(** Assigning to a key that is present keeps the keys and their order;
    assigning to a new one appends it. *)
Lemma keys_setitem {V : Type} (d : Dict.dict V) (k : str) (v : V) :
  Dict.keys (Dict.setitem k v d)
  = match Dict.getitem k d with
    | Some _ => Dict.keys d
    | None => Dict.keys d ++ [k]
    end.
Proof.
  unfold Dict.keys.
  induction d as [| [k' v'] r IH]; [reflexivity |].
  cbn [Dict.setitem Dict.getitem].
  destruct (Dict.key_eqb k' k) eqn:E; [reflexivity |].
  cbn [map fst]. rewrite IH.
  destruct (Dict.getitem k r); reflexivity.
Qed.

(** X15: attribute assignment on [Options] is a dictionary update: the
    attribute then reads as the value assigned, every other attribute reads
    as before, and the keys are kept in place, a new name going last. *)
Theorem X15_Options_setattr_getattr
        (self : Dict.dict pyval) (name other : str) (value : pyval) :
  OptionsDict.getattr (OptionsDict.setattr self name value) name = value
  /\ (name <> other ->
      OptionsDict.getattr (OptionsDict.setattr self name value) other
      = OptionsDict.getattr self other)
  /\ Dict.keys (OptionsDict.setattr self name value)
     = match Dict.getitem name self with
       | Some _ => Dict.keys self
       | None => Dict.keys self ++ [name]
       end.
Proof.
  unfold OptionsDict.getattr, OptionsDict.setattr. split; [| split].
  - rewrite getitem_setitem_same. reflexivity.
  - intros Hne. rewrite (getitem_setitem_other self name other value Hne).
    reflexivity.
  - apply keys_setitem.
Qed.

(** X16: reading an attribute never raises: a name that is not a key reads
    as [None]; for options as the constructor builds them that is every
    name but its four, which read as the arguments given. *)
Theorem X16_Options_missing_attribute_is_None
        (self : Dict.dict pyval) (name : str) (o : Options) :
  (~ In name (Dict.keys self) -> OptionsDict.getattr self name = PyNone)
  /\ (name <> lit "modelFile" -> name <> lit "encoding" ->
      name <> lit "variants_number" -> name <> lit "variants_mass" ->
      OptionsDict.getattr (OptionsDict.of_record o) name = PyNone)
  /\ OptionsDict.getattr (OptionsDict.of_record o) (lit "modelFile")
     = PyStr (modelFile o)
  /\ OptionsDict.getattr (OptionsDict.of_record o) (lit "encoding")
     = PyStr (encoding o)
  /\ OptionsDict.getattr (OptionsDict.of_record o) (lit "variants_number")
     = PyInt (variants_number o)
  /\ OptionsDict.getattr (OptionsDict.of_record o) (lit "variants_mass")
     = PyFloat (variants_mass o).
Proof.
  assert (Hmiss : forall d : Dict.dict pyval,
             ~ In name (Dict.keys d) -> OptionsDict.getattr d name = PyNone).
  { intros d H. unfold OptionsDict.getattr.
    rewrite (proj2 (getitem_None d name) H). reflexivity. }
  split; [apply Hmiss |]. split.
  - intros H1 H2 H3 H4. apply Hmiss. simpl.
    intros [H | [H | [H | [H | []]]]]; congruence.
  - repeat split; reflexivity.
Qed.

(** ** ipa_map *)

Lemma char_eqb_eq (a b : char) : char_eqb a b = true <-> a = b.
Proof. unfold char_eqb. apply Z.eqb_eq. Qed.

Lemma split_on_from_cons (sep : char) (cur s : str) :
  exists f fs, split_on_from sep cur s = f :: fs.
Proof.
  revert cur. induction s as [| c r IH]; intros cur; simpl; eauto.
  destruct (char_eqb c sep); eauto.
Qed.

(** Joining the fields with the separator gives the string back. *)
Lemma join_split_on_from (sep : char) (s cur : str) :
  join [sep] (split_on_from sep cur s) = rev cur ++ s.
Proof.
  revert cur. induction s as [| c r IH]; intros cur.
  - simpl. rewrite app_nil_r. reflexivity.
  - simpl. destruct (char_eqb c sep) eqn:E.
    + apply char_eqb_eq in E. subst c.
      destruct (split_on_from_cons sep [] r) as (f & fs & Hf).
      specialize (IH []). rewrite Hf in IH |- *.
      change (join [sep] (rev cur :: f :: fs))
        with (rev cur ++ [sep] ++ join [sep] (f :: fs)).
      rewrite IH. reflexivity.
    + rewrite IH. simpl. rewrite <- app_assoc. reflexivity.
Qed.

(** No field holds the separator. *)
Lemma split_on_from_fields (sep : char) (s cur : str) :
  ~ In sep cur ->
  Forall (fun f => ~ In sep f) (split_on_from sep cur s).
Proof.
  revert cur. induction s as [| c r IH]; intros cur Hcur; simpl.
  - constructor; [| constructor]. rewrite <- in_rev. exact Hcur.
  - destruct (char_eqb c sep) eqn:E.
    + constructor; [rewrite <- in_rev; exact Hcur |].
      apply IH. intros [].
    + apply IH. intros [H | H]; [| contradiction].
      subst c. unfold char_eqb in E. rewrite Z.eqb_refl in E. discriminate.
Qed.

Lemma split_on_from_no_sep (sep : char) (s cur : str) :
  ~ In sep s -> split_on_from sep cur s = [rev cur ++ s].
Proof.
  revert cur. induction s as [| c r IH]; intros cur H; simpl.
  - rewrite app_nil_r. reflexivity.
  - destruct (char_eqb c sep) eqn:E.
    + apply char_eqb_eq in E. subst c. exfalso. apply H. left. reflexivity.
    + rewrite IH by (intros Hin; apply H; right; exact Hin).
      simpl. rewrite <- app_assoc. reflexivity.
Qed.

Lemma split_on_from_app (sep : char) (a b cur : str) :
  ~ In sep a ->
  split_on_from sep cur (a ++ sep :: b)
  = (rev cur ++ a) :: split_on_from sep [] b.
Proof.
  revert cur. induction a as [| c r IH]; intros cur H; simpl.
  - unfold char_eqb. rewrite Z.eqb_refl, app_nil_r. reflexivity.
  - destruct (char_eqb c sep) eqn:E.
    + apply char_eqb_eq in E. subst c. exfalso. apply H. left. reflexivity.
    + rewrite IH by (intros Hin; apply H; right; exact Hin).
      simpl. rewrite <- app_assoc. reflexivity.
Qed.

Lemma lstrip_head (s : str) (c : char) (r : str) :
  lstrip s = c :: r -> isspace c = false.
Proof.
  induction s as [| x xs IH]; simpl; [discriminate |].
  destruct (isspace x) eqn:Hx; [exact IH |].
  intros H. inversion H. subst. exact Hx.
Qed.

(** A stripped string neither starts nor ends with whitespace. *)
Lemma strip_last (s r : str) (c : char) :
  strip s = r ++ [c] -> isspace c = false.
Proof.
  unfold strip. intros H. apply (f_equal (@rev Z)) in H.
  rewrite rev_involutive, rev_app_distr in H. simpl in H.
  exact (lstrip_head _ _ _ H).
Qed.

Lemma strip_head (s r : str) (c : char) :
  strip s = c :: r -> isspace c = false.
Proof.
  unfold strip. intros H. apply (f_equal (@rev Z)) in H.
  rewrite rev_involutive in H. simpl in H.
  destruct (lstrip_prefix (rev (lstrip s))) as (ws & Heq & _).
  rewrite H in Heq. apply (f_equal (@rev Z)) in Heq.
  rewrite rev_involutive, !rev_app_distr in Heq. simpl in Heq.
  exact (lstrip_head _ _ _ Heq).
Qed.

(** A line gives an entry exactly when, stripped, it is two fields without
    a tab around one tab. *)
Lemma ipa_entry_Ok (line old new : str) :
  ipa_entry line = Ok (old, new)
  <-> strip line = old ++ 9%Z :: new /\ ~ In 9%Z old /\ ~ In 9%Z new.
Proof.
  unfold ipa_entry, split_on. split.
  - intros H.
    pose proof (join_split_on_from 9%Z (strip line) []) as Hjoin.
    pose proof (split_on_from_fields 9%Z (strip line) [] (fun x => x)) as Hf.
    destruct (split_on_from 9%Z [] (strip line)) as [| a [| b [| c l]]];
      try discriminate.
    inversion H. subst a b. simpl in Hjoin.
    inversion Hf as [| ? ? Ha Hf']. inversion Hf' as [| ? ? Hb _]. subst.
    split; [symmetry; exact Hjoin | split; assumption].
  - intros (Heq & Ho & Hn). rewrite Heq.
    rewrite split_on_from_app by exact Ho.
    rewrite split_on_from_no_sep by exact Hn. reflexivity.
Qed.

(** A line gives an entry or raises [ValueError]. *)
Lemma ipa_entry_cases (line : str) :
  (exists old new, ipa_entry line = Ok (old, new))
  \/ ipa_entry line = Raise ValueError.
Proof.
  unfold ipa_entry.
  destruct (split_on 9%Z (strip line)) as [| a [| b [| c l]]]; eauto.
Qed.

(** A line gives an entry exactly when, stripped, it holds one tab. *)
Lemma ipa_entry_one_tab (line : str) :
  (exists old new, ipa_entry line = Ok (old, new))
  <-> count_occ Z.eq_dec (strip line) 9%Z = 1%nat.
Proof.
  split.
  - intros (old & new & H). apply ipa_entry_Ok in H.
    destruct H as (Heq & Ho & Hn).
    rewrite Heq, count_occ_app, count_occ_cons_eq by reflexivity.
    apply (count_occ_not_In Z.eq_dec) in Ho, Hn.
    unfold char in *. rewrite Ho, Hn. reflexivity.
  - intros H.
    assert (Hin : In 9%Z (strip line)).
    { apply (count_occ_In Z.eq_dec). rewrite H. lia. }
    apply in_split in Hin. destruct Hin as (old & new & Heq).
    exists old, new. apply ipa_entry_Ok. split; [exact Heq |].
    rewrite Heq, count_occ_app, count_occ_cons_eq in H by reflexivity.
    split; apply (count_occ_not_In Z.eq_dec); unfold char in *; lia.
Qed.

(** X17: the two symbols of every line that [ipa_map] accepts are not
    empty, hold no tab and have no whitespace around them; so a line with
    an empty side, such as a symbol followed by a tab only, is not
    accepted. *)
Theorem X17_ipa_entry_fields (line old new : str) :
  ipa_entry line = Ok (old, new) ->
  old <> [] /\ new <> [] /\ ~ In 9%Z old /\ ~ In 9%Z new
  /\ strip line = old ++ 9%Z :: new
  /\ (forall c r, old = c :: r -> isspace c = false)
  /\ (forall c r, new = r ++ [c] -> isspace c = false).
Proof.
  intros H. apply ipa_entry_Ok in H. destruct H as (Heq & Ho & Hn).
  assert (Hold : old <> []).
  { intros ->. simpl in Heq. apply strip_head in Heq. discriminate. }
  assert (Hnew : new <> []).
  { intros ->. apply strip_last in Heq. discriminate. }
  repeat split; try assumption.
  - intros c r ->. simpl in Heq. exact (strip_head _ _ _ Heq).
  - intros c r ->.
    change (old ++ 9%Z :: r ++ [c]) with (old ++ (9%Z :: r) ++ [c]) in Heq.
    rewrite app_assoc in Heq. exact (strip_last _ _ _ Heq).
Qed.

(** X18: building [ipa_map] succeeds when every line of the file,
    stripped, holds exactly one tab, and raises [ValueError] as soon as one
    line does not (a blank line, a line without a tab or with two): one such
    line and there is no map at all. *)
Theorem X18_ipa_map_all_lines_or_ValueError (lines : list str) :
  (Forall (fun line => count_occ Z.eq_dec (strip line) 9%Z = 1%nat) lines ->
   exists m, ipa_map lines = Ok m)
  /\ (Exists (fun line => count_occ Z.eq_dec (strip line) 9%Z <> 1%nat) lines ->
      ipa_map lines = Raise ValueError).
Proof.
  assert (Hgood : Forall (fun line => count_occ Z.eq_dec (strip line) 9%Z
                                      = 1%nat) lines ->
                  Forall (fun line => exists old new,
                              ipa_entry line = Ok (old, new)) lines).
  { apply Forall_impl. intros line. apply ipa_entry_one_tab. }
  assert (Hbad : Exists (fun line => count_occ Z.eq_dec (strip line) 9%Z
                                     <> 1%nat) lines ->
                 Exists (fun line => ipa_entry line = Raise ValueError) lines).
  { apply Exists_impl. intros line Hne.
    destruct (ipa_entry_cases line) as [Hok | Hraise]; [| exact Hraise].
    apply ipa_entry_one_tab in Hok. contradiction. }
  enough (Hmain :
            (Forall (fun line => exists old new,
                         ipa_entry line = Ok (old, new)) lines ->
             exists m, ipa_map lines = Ok m)
            /\ (Exists (fun line => ipa_entry line = Raise ValueError) lines ->
                ipa_map lines = Raise ValueError)).
  { destruct Hmain as [H1 H2]. split; auto. }
  clear Hgood Hbad.
  unfold ipa_map. generalize (@nil (str * str)) as acc.
  induction lines as [| line rest IH]; intros acc.
  - split; [intros _; exists acc; reflexivity | intros H; inversion H].
  - split.
    + intros H. inversion H as [| ? ? (old & new & Hl) Hrest]. subst.
      simpl. rewrite Hl. simpl. apply IH. exact Hrest.
    + intros H. simpl.
      destruct (ipa_entry_cases line) as [(old & new & Hl) | Hl].
      * rewrite Hl. simpl. apply IH.
        inversion H as [? ? Hhd | ? ? Htl]; subst; [congruence | exact Htl].
      * rewrite Hl. reflexivity.
Qed.

Lemma ipa_map_from_lookup (lines : list str) :
  forall (acc m : Dict.dict str) (k : str),
    ipa_map_from acc lines = Ok m ->
    Dict.getitem k m
    = match last_mapping k lines with
      | Some v => Some v
      | None => Dict.getitem k acc
      end.
Proof.
  induction lines as [| line rest IH]; intros acc m k H.
  - simpl in H. inversion H. reflexivity.
  - simpl in H.
    destruct (ipa_entry line) as [[old new] | e |] eqn:Hl; simpl in H;
      try discriminate.
    rewrite (IH _ _ k H). simpl. rewrite Hl.
    destruct (last_mapping k rest); [reflexivity |].
    destruct (Dict.key_eqb old k) eqn:E.
    + apply key_eqb_eq in E. subst. apply getitem_setitem_same.
    + apply getitem_setitem_other. intros ->.
      rewrite key_eqb_refl in E. discriminate.
Qed.

(** X19: the map holds, for every symbol, what the last line for that
    symbol says, and nothing for a symbol no line starts with: a later line
    replaces an earlier one for the same symbol. *)
Theorem X19_ipa_map_last_line_wins (lines : list str) (m : Dict.dict str)
        (k : str) :
  ipa_map lines = Ok m ->
  Dict.getitem k m = last_mapping k lines.
Proof.
  intros H. rewrite (ipa_map_from_lookup lines [] m k H).
  destruct (last_mapping k lines); reflexivity.
Qed.

(** ** One line out for each line in *)

Lemma lstrip_incl (s : str) (c : char) : In c (lstrip s) -> In c s.
Proof.
  destruct (lstrip_prefix s) as (ws & Heq & _). intros H.
  rewrite Heq. apply in_or_app. right. exact H.
Qed.

(** Every character of a stripped string is one of the string. *)
Lemma strip_incl (s : str) (c : char) : In c (strip s) -> In c s.
Proof.
  unfold strip. intros H. apply in_rev, lstrip_incl, in_rev in H.
  apply lstrip_incl. exact H.
Qed.

Lemma lstrip_app (s t : str) :
  lstrip (s ++ t) = match lstrip s with [] => lstrip t | _ => lstrip s ++ t end.
Proof.
  induction s as [| c r IH]; simpl.
  - destruct (lstrip t); reflexivity.
  - destruct (isspace c); [exact IH | reflexivity].
Qed.

(** A whitespace character at the end does not change the stripped
    string. *)
Lemma strip_app_space (s : str) (c : char) :
  isspace c = true -> strip (s ++ [c]) = strip s.
Proof.
  intros Hc. unfold strip. rewrite lstrip_app.
  destruct (lstrip s) as [| x xs] eqn:Hs.
  - simpl. rewrite Hc. reflexivity.
  - rewrite rev_app_distr. simpl. rewrite Hc. reflexivity.
Qed.

(** A line as the iteration over a file yields it, with a newline at its
    end at most, has no newline once stripped. *)
Lemma strip_file_line (body line : str) :
  ~ In 10%Z body -> line = body \/ line = body ++ [10%Z] ->
  ~ In 10%Z (strip line).
Proof.
  intros Hbody [-> | ->] H.
  - apply Hbody, strip_incl, H.
  - rewrite strip_app_space in H by reflexivity.
    apply Hbody, strip_incl, H.
Qed.

Lemma join_no_char (c : char) (sep : str) (parts : list str) :
  ~ In c sep -> Forall (fun p => ~ In c p) parts -> ~ In c (join sep parts).
Proof.
  intros Hsep Hparts. induction Hparts as [| p rest Hp _ IH].
  - intros [].
  - destruct rest as [| q rest']; [exact Hp |].
    change (join sep (p :: q :: rest'))
      with (p ++ sep ++ join sep (q :: rest')).
    intros H. apply in_app_or in H. destruct H as [H | H]; [tauto |].
    apply in_app_or in H. destruct H as [H | H]; tauto.
Qed.

Section OneLinePerLine.

Variable State : Type.
Variable math_exp : float -> option float.
Variable lower : str -> str.
Variable G2P_MODEL : option str.
Variable load_translator : Options -> Translator State.

(** The symbols the search hands out hold no newline. *)
Hypothesis symbols_without_newline :
  forall (o : Options) (st st' : State) (log_like : float) (result : list str),
    nBestNext (load_translator o) st = inr (log_like, result, st') ->
    Forall (fun symbol => ~ In 10%Z symbol) result.

Lemma entries_without_newline (o : Options) (k : nat) :
  forall (st : State) (added : list Entry),
    Forall2 (entry_of math_exp (load_translator o))
            (candidates (load_translator o) k st) added ->
    Forall (fun e => ~ In 10%Z (pronunciation e)) added.
Proof.
  induction k as [| k IH]; intros st added H; simpl in H.
  - inversion H. constructor.
  - destruct (nBestNext (load_translator o) st) as [e | [[ll res] st']] eqn:Hn.
    + inversion H. constructor.
    + inversion H as [| c e cs es Hentry Hrest]. subst.
      constructor; [| exact (IH st' es Hrest)].
      unfold entry_of in Hentry. destruct Hentry as [_ ->].
      apply join_no_char.
      * intros [Heq | []]. discriminate Heq.
      * exact (symbols_without_newline o st st' ll res Hn).
Qed.

Lemma record_without_newline (o opts : Options) (w : str) (out : Output) :
  predict_word math_exp (load_translator o) opts w = Ok out ->
  ~ In 10%Z (top_pronunciation out).
Proof.
  intros H. apply predict_word_fuel_Ok in H.
  destruct H as (_ & [[_ Hnil] | (st & k & end_ & _ & Hit & Hrs & _)]).
  - unfold top_pronunciation. rewrite Hnil. intros [].
  - destruct (iterate_results _ _ _ _ k _ _ Hit) as (added & Hres & _ & Hall).
    simpl in Hres, Hall. apply entries_without_newline in Hall.
    unfold top_pronunciation. rewrite Hrs, Hres.
    destruct Hall as [| e es He _]; [intros [] | exact He].
Qed.

(** X20: when the symbols of the translator hold no newline and every
    line of the file has a newline at its end at most, every string
    [g2p_file] writes holds exactly one newline, its last character: the
    output file has as many lines as the input file, in the same order. *)
Theorem X20_g2p_file_one_line_per_line
        (lines : list str) (n_jobs : Z) (o : option Options)
        (written : list str) :
  Forall (fun line =>
            exists body,
              ~ In 10%Z body /\ (line = body \/ line = body ++ [10%Z]))
         lines ->
  g2p_file math_exp lower G2P_MODEL load_translator lines n_jobs o
  = Ok written ->
  length written = length lines
  /\ Forall (fun out =>
               count_occ Z.eq_dec out 10%Z = 1%nat
               /\ exists text, out = text ++ [10%Z])
            written.
Proof.
  intros Hlines H.
  destruct (g2p_file_Ok_inv _ _ _ _ _ lines n_jobs o written H) as [_ Hall].
  split; [symmetry; exact (Forall2_length_eq _ _ _ Hall) |].
  clear H. induction Hall as [| line out ls os (phones & Hph & ->) _ IH].
  - constructor.
  - inversion Hlines as [| ? ? (body & Hbody & Hline) Hrest]. subst.
    constructor; [| exact (IH Hrest)].
    pose proof (strip_file_line body line Hbody Hline) as Hstrip.
    apply get_phones_Ok_inv in Hph.
    destruct Hph as (preds & Hpreds & _ & ->).
    assert (Hphones : ~ In 10%Z (join [9%Z] (map top_pronunciation preds))).
    { apply join_no_char; [intros [Heq | []]; discriminate Heq |].
      apply mapM_Ok_inv in Hpreds. rewrite Forall_map.
      clear - Hpreds symbols_without_newline.
      induction Hpreds as [| w pred ws ps Hw _ IHp]; constructor.
      - exact (record_without_newline _ _ w pred Hw).
      - exact IHp. }
    unfold format_line. split.
    + apply (count_occ_not_In Z.eq_dec) in Hstrip, Hphones.
      unfold char, str in *.
      rewrite !count_occ_app, Hstrip, Hphones. reflexivity.
    + exists (strip line ++ [9; 126; 32]%Z
              ++ join [9%Z] (map top_pronunciation preds) ++ [32; 126]%Z).
      rewrite <- !app_assoc. reflexivity.
Qed.

End OneLinePerLine.

(** ** A larger variant bound *)

Section MoreVariants.

Variable State : Type.
Variable math_exp : float -> option float.
Variable tr : Translator State.

Lemma iterate_add (opts : Options) (a b : nat) :
  forall ls : LoopState State,
    iterate math_exp tr opts (a + b) ls
    = match iterate math_exp tr opts a ls with
      | Some mid => iterate math_exp tr opts b mid
      | None => None
      end.
Proof.
  induction a as [| a IH]; intros ls; [reflexivity |].
  change (S a + b)%nat with (S (a + b)). rewrite !iterate_S.
  destruct (loop_cond opts ls); [| reflexivity].
  destruct (loop_body math_exp tr ls); try reflexivity. apply IH.
Qed.

(** The runs the loop makes under a variant bound, it makes under a larger
    one with the same mass bound. *)
Lemma iterate_larger_bound (opts opts' : Options) (k : nat) :
  variants_mass opts' = variants_mass opts ->
  (variants_number opts <= variants_number opts')%Z ->
  forall ls ls' : LoopState State,
    iterate math_exp tr opts k ls = Some ls' ->
    iterate math_exp tr opts' k ls = Some ls'.
Proof.
  intros Hmass Hnum. induction k as [| k IH]; intros ls ls' H;
    [exact H |].
  rewrite iterate_S in H |- *.
  destruct (loop_cond opts ls) eqn:Hc; [| discriminate].
  assert (Hc' : loop_cond opts' ls = true).
  { unfold loop_cond in Hc |- *. rewrite Hmass.
    apply andb_prop in Hc. destruct Hc as [-> Hn]. simpl.
    apply Z.ltb_lt in Hn. apply Z.ltb_lt. lia. }
  rewrite Hc'. destruct (loop_body math_exp tr ls); try discriminate.
  apply IH. exact H.
Qed.

(** X21: raising [variants_number], the mass bound unchanged, only adds
    entries after those a word had: the list under the smaller bound is a
    prefix of the list under the larger one. *)
Theorem X21_larger_variant_bound_extends_results
        (opts opts' : Options) (w : str) (out out' : Output) :
  variants_mass opts' = variants_mass opts ->
  (variants_number opts <= variants_number opts')%Z ->
  predict_word math_exp tr opts w = Ok out ->
  predict_word math_exp tr opts' w = Ok out' ->
  exists more, results out' = results out ++ more.
Proof.
  intros Hmass Hnum Hout Hout'.
  apply predict_word_fuel_Ok in Hout, Hout'.
  destruct Hout as (_ & [[Hfail Hnil] | (st & k & end_ & Hinit & Hit & Hrs & _)]).
  { rewrite Hnil. exists (results out'). reflexivity. }
  destruct Hout' as (_ & [[Hfail _] | (st' & k' & end' & Hinit' & Hit' & Hrs' & Hex')]).
  { rewrite Hinit in Hfail. discriminate. }
  rewrite Hinit in Hinit'. inversion Hinit'. subst st'.
  apply (iterate_larger_bound opts opts' k Hmass Hnum) in Hit.
  destruct (Nat.le_gt_cases k k') as [Hle | Hgt].
  - replace k' with (k + (k' - k))%nat in Hit' by lia.
    rewrite iterate_add, Hit in Hit'.
    destruct (iterate_results _ _ _ _ _ _ _ Hit') as (more & Hres & _).
    exists more. rewrite Hrs, Hrs'. exact Hres.
  - exfalso.
    replace k with (k' + S (k - k' - 1))%nat in Hit by lia.
    rewrite iterate_add, Hit', iterate_S in Hit.
    unfold loop_exit in Hex'.
    destruct (loop_cond opts' end'); [| discriminate].
    destruct (loop_body math_exp tr end'); try discriminate.
    destruct Hex'; discriminate.
Qed.

End MoreVariants.

(* ===================================================================== *)
(** * The further properties on concrete inputs *)
(* ===================================================================== *)

Module MoreRuns.

Local Abbreviation tr := (Sample.translator Sample.lexicon).
Local Abbreviation defaults := (Sample.options 4 Conf.VARIANTS_MASS).
Local Abbreviation kab :=
  {| posterior := 1%float; pronunciation := lit "k a b" |}.
Local Abbreviation newline := [10%Z].

(** X1 on the words [hús] and [þak]. *)
Lemma X1_witness :
  exists outs,
    predict Sample.exp tr defaults [lit "hús"; lit "þak"] = Ok outs
    /\ map word outs = [lit "hús"; lit "þak"].
Proof.
  eexists. split.
  - vm_compute. reflexivity.
  - apply (X1_predict_one_record_per_word Sample.ctx Sample.exp tr defaults).
    vm_compute. reflexivity.
Defined.

(** X4 on [cab] with the variant bound 0. *)
Lemma X4_witness :
  exists out,
    predict_word Sample.exp tr (Sample.options 0 Conf.VARIANTS_MASS)
                 (lit "cab") = Ok out
    /\ results out = [].
Proof.
  eexists. split.
  - vm_compute. reflexivity.
  - apply (X4_no_entry_without_positive_bounds
             Sample.ctx Sample.exp tr (Sample.options 0 Conf.VARIANTS_MASS)
             (lit "cab")).
    + left. simpl. lia.
    + vm_compute. reflexivity.
Defined.

(** X5 on [cab] with the bounds 4 and 1.5. *)
Lemma X5_witness :
  exists out rest,
    predict_word Sample.exp tr (Sample.options 4 1.5) (lit "cab") = Ok out
    /\ results out = kab :: rest.
Proof.
  eexists.
  destruct (X5_first_candidate_is_first_entry
              Sample.ctx Sample.exp tr (Sample.options 4 1.5) (lit "cab")
              Sample.cab
              {| Sample.total := (-1)%float;
                 Sample.script
                 := [ inr ((-2)%float, [lit "k"; lit "a"; lit "p"]) ] |}
              (-1)%float 1%float [lit "k"; lit "a"; lit "b"]
              _ ltac:(simpl; lia) eq_refl eq_refl eq_refl eq_refl
              ltac:(vm_compute; reflexivity)) as [rest Hrest].
  exists rest. split; [vm_compute; reflexivity | exact Hrest].
Defined.

(** X6 on [cab] with the defaults: the first posterior, 1.0, is not below
    0.9. *)
Lemma X6_witness :
  predict_word Sample.exp tr defaults (lit "cab")
  = Ok {| word := lit "cab"; results := [kab] |}.
Proof.
  apply (X6_mass_reached_by_first_entry
           Sample.ctx Sample.exp tr defaults (lit "cab") Sample.cab
           {| Sample.total := (-1)%float;
              Sample.script
              := [ inr ((-2)%float, [lit "k"; lit "a"; lit "p"]) ] |}
           (-1)%float 1%float [lit "k"; lit "a"; lit "b"]);
    solve [simpl; lia | reflexivity].
Defined.

(** X7 on a word whose first candidate makes the exponential overflow. *)
Lemma X7_witness :
  predict_word Sample.exp (Sample.translator Sample2.overflow_lexicon)
               defaults (lit "æ")
  = Raise OverflowError
  /\ forall ws,
       predict Sample.exp (Sample.translator Sample2.overflow_lexicon)
               defaults (lit "æ" :: ws)
       = Raise OverflowError.
Proof.
  apply (X7_other_exceptions_propagate
           Sample.ctx Sample.exp (Sample.translator Sample2.overflow_lexicon)
           defaults (lit "æ") Sample2.overflow 0
           (loop_start Sample2.overflow)).
  - reflexivity.
  - reflexivity.
  - vm_compute. reflexivity.
  - discriminate.
Defined.

(** X8 on [Hús og]. *)
Lemma X8_witness :
  length [lit "h u: s"; lit "O: G"] = length (split (lit "Hús og"))
  /\ exists preds,
       predict Sample.exp (Sample.load (default_options None))
               (default_options None)
               (map (fun w => normalize_word latin1_lower w SUB_PATTERN)
                    (split (lit "Hús og")))
       = Ok preds
       /\ Forall (fun pred => results pred <> []) preds
       /\ [lit "h u: s"; lit "O: G"] = map top_pronunciation preds.
Proof.
  apply (X8_get_phones_one_pronunciation_per_token
           Sample.ctx Sample.exp latin1_lower None Sample.load
           (lit "Hús og") None).
  vm_compute. reflexivity.
Defined.

(** X9 on an utterance of two spaces and a newline. *)
Lemma X9_witness :
  get_phones Sample.exp latin1_lower None Sample.load
             (lit "  " ++ newline) None
  = Ok [].
Proof.
  apply (X9_get_phones_blank_utterance
           Sample.ctx Sample.exp latin1_lower None Sample.load).
  reflexivity.
Defined.

(** X10 on [hús og] written with a tab and with spaces around. *)
Lemma X10_witness :
  get_phones Sample.exp latin1_lower None Sample.load
             (lit " hús  og" ++ newline) None
  = get_phones Sample.exp latin1_lower None Sample.load
               (lit "hús" ++ [9%Z] ++ lit "og") None.
Proof.
  apply (X10_get_phones_whitespace_insensitive
           Sample.ctx Sample.exp latin1_lower None Sample.load).
  vm_compute. reflexivity.
Defined.

(** X11 on a file with the line [Hús og]. *)
Lemma X11_witness :
  (0 < 16)%Z
  /\ length [ lit "Hús og" ++ [9%Z] ++ lit "~ h u: s" ++ [9%Z]
              ++ lit "O: G ~" ++ newline ]
     = length [ lit "Hús og" ++ newline ]
  /\ Forall2 (fun line out =>
                exists phones,
                  get_phones Sample.exp latin1_lower None Sample.load line None
                  = Ok phones
                  /\ out = format_line line phones)
             [ lit "Hús og" ++ newline ]
             [ lit "Hús og" ++ [9%Z] ++ lit "~ h u: s" ++ [9%Z]
               ++ lit "O: G ~" ++ newline ].
Proof.
  apply (X11_g2p_file_all_or_nothing
           Sample.ctx Sample.exp latin1_lower None Sample.load
           [lit "Hús og" ++ newline] 16 None).
  vm_compute. reflexivity.
Defined.

(** X12 on a file of an empty line and a line of one space. *)
Lemma X12_witness :
  g2p_file Sample.exp latin1_lower None Sample.load
           [newline; lit " " ++ newline] 16 None
  = Ok [ [9; 126; 32; 32; 126; 10]%Z; [9; 126; 32; 32; 126; 10]%Z ].
Proof.
  apply (X12_g2p_file_blank_lines
           Sample.ctx Sample.exp latin1_lower None Sample.load
           [newline; lit " " ++ newline] 16 None).
  - lia.
  - repeat constructor.
Defined.

Lemma mem_In (c : char) (s : str) : mem c s = true -> In c s.
Proof.
  intros H. unfold mem in H. apply existsb_exists in H.
  destruct H as (x & Hin & Heq). apply Z.eqb_eq in Heq. subst x. exact Hin.
Qed.

Lemma latin1_lower_char_alphabet :
  forallb (fun x => (latin1_lower_char x =? x)%Z) Conf.ICE_ALPHABET = true.
Proof. vm_compute. reflexivity. Qed.

(** Lowercasing leaves the letters of the configured alphabet as they
    are. *)
Lemma latin1_lower_over_alphabet (s : str) :
  (forall c, In c s -> mem c Conf.ICE_ALPHABET = true) -> latin1_lower s = s.
Proof.
  intros H. unfold latin1_lower. rewrite <- (map_id s) at 2.
  apply map_ext_in. intros c Hc. apply Z.eqb_eq.
  apply (proj1 (forallb_forall _ _) latin1_lower_char_alphabet).
  apply mem_In, H, Hc.
Qed.

(** X13 on [Hús!] with the configured alphabet. *)
Lemma X13_witness :
  normalize_word latin1_lower
                 (normalize_word latin1_lower (lit "Hús!") SUB_PATTERN)
                 SUB_PATTERN
  = normalize_word latin1_lower (lit "Hús!") SUB_PATTERN.
Proof.
  apply (X13_normalize_word_idempotent
           latin1_lower Conf.ICE_ALPHABET (lit "Hús!")).
  exact latin1_lower_over_alphabet.
Defined.

(** X14 on the utterance [Hús, og!]: the letter ú of its first word. *)
Lemma X14_witness : mem 250%Z Conf.ICE_ALPHABET = true.
Proof.
  apply (X14_words_for_predict_over_alphabet
           latin1_lower (lit "Hús, og!") (lit "hús") 250%Z).
  - vm_compute. left. reflexivity.
  - vm_compute. right. left. reflexivity.
Defined.

(** X17 on the first line of the sample map. *)
Lemma X17_witness :
  lit "a" <> [] /\ lit "A" <> []
  /\ ~ In 9%Z (lit "a") /\ ~ In 9%Z (lit "A")
  /\ strip (lit "a" ++ [9%Z] ++ lit "A" ++ newline)
     = lit "a" ++ 9%Z :: lit "A"
  /\ (forall c r, lit "a" = c :: r -> isspace c = false)
  /\ (forall c r, lit "A" = r ++ [c] -> isspace c = false).
Proof.
  apply (X17_ipa_entry_fields (lit "a" ++ [9%Z] ++ lit "A" ++ newline)).
  vm_compute. reflexivity.
Defined.

(** X19 on the sample map: the third line replaces the first. *)
Lemma X19_witness :
  exists m,
    ipa_map Sample2.map_lines = Ok m
    /\ Dict.getitem (lit "a") m = last_mapping (lit "a") Sample2.map_lines
    /\ last_mapping (lit "a") Sample2.map_lines = Some (lit "C").
Proof.
  eexists. split; [vm_compute; reflexivity |]. split.
  - apply (X19_ipa_map_last_line_wins Sample2.map_lines).
    vm_compute. reflexivity.
  - vm_compute. reflexivity.
Defined.

(** X20 on a file of two lines, the second without its newline, and the
    translator of the one symbol [a]. *)
Lemma X20_witness :
  exists written,
    g2p_file Sample.exp latin1_lower None (fun _ => Sample2.single)
             [lit "á" ++ newline; lit "a á"] 16 None
    = Ok written
    /\ length written = length [lit "á" ++ newline; lit "a á"]
    /\ Forall (fun out =>
                 count_occ Z.eq_dec out 10%Z = 1%nat
                 /\ exists text, out = text ++ [10%Z])
              written.
Proof.
  eexists. split; [vm_compute; reflexivity |].
  apply (X20_g2p_file_one_line_per_line
           bool Sample.exp latin1_lower None (fun _ => Sample2.single)
           ltac:(intros o st st' ll res H; destruct st; simpl in H;
                 inversion H; repeat constructor; intros [Heq | []];
                 discriminate Heq)
           [lit "á" ++ newline; lit "a á"] 16 None).
  - constructor; [| constructor; [| constructor]].
    + exists (lit "á"). split; [| right; reflexivity].
      vm_compute. intros [Heq | []]. discriminate Heq.
    + exists (lit "a á"). split; [| left; reflexivity].
      vm_compute. intros [Heq | [Heq | [Heq | []]]]; discriminate Heq.
  - vm_compute. reflexivity.
Defined.

(** X21 on [cab] with the variant bounds 1 and 4 and the mass bound 1.5. *)
Lemma X21_witness :
  exists out out' more,
    predict_word Sample.exp tr (Sample.options 1 1.5) (lit "cab") = Ok out
    /\ predict_word Sample.exp tr (Sample.options 4 1.5) (lit "cab") = Ok out'
    /\ results out' = results out ++ more.
Proof.
  eexists. eexists.
  destruct (X21_larger_variant_bound_extends_results
              Sample.ctx Sample.exp tr
              (Sample.options 1 1.5) (Sample.options 4 1.5) (lit "cab")
              _ _ eq_refl ltac:(simpl; lia)
              ltac:(vm_compute; reflexivity) ltac:(vm_compute; reflexivity))
    as [more Hmore].
  exists more. split; [vm_compute; reflexivity |].
  split; [vm_compute; reflexivity | exact Hmore].
Defined.

End MoreRuns.
